(** * PyPlug: routing of attribute access through a socket to its plugs

    A shallow embedding of [pyplug/pyplug.py].  Python objects live in a
    store indexed by object identity; the methods of [Socket] and [Plug]
    are state transformers over that store that either return, or raise a
    Python exception.

    What the embedding covers:
    - [Socket.__getattr__] is the method Python calls for a name that the
      ordinary lookup does not find on the socket, so a read below is a
      read of a name other than the socket's own attributes and methods;
      [Socket.__setattr__] is called for every assignment.
    - Attribute access on a plug is a lookup in, or an update of, the
      plug's attribute table.  The [_supplies] dict is kept apart as a
      typed field: reading it through [getattr] gives the dict.  An
      assignment to one of the attributes that Python does not store in
      the instance dict behaves as in Python: [__class__] and [__weakref__]
      raise, and so does [__dict__] with anything but a dict.  The two
      assignments that replace the plug's bookkeeping, to [_supplies] and
      of a dict to [__dict__], leave the typed store and have the outcome
      [Unmodelled].
    - The hooks [connected] and [disconnected] are parameters: any state
      transformer a subclass may put there. *)

From stdpp Require Import base functions gmap list strings sorting.
From Equations Require Import Equations.
From Equations.Prop Require Import Logic.

Open Scope string_scope.
Open Scope list_scope.
Open Scope Z_scope.

(** ** Object model *)

(** Object identities ([id(obj)] in Python). *)
Definition plug_id := nat.
Definition socket_id := nat.

(** The values that the model stores in attributes. [VDict] is what
    reading a plug's own [_supplies] attribute gives. *)
Inductive value :=
| VNone
| VInt (z : Z)
| VStr (s : string)
| VSocket (s : socket_id)
| VDict (d : gmap string string).

(** The exceptions the code can raise: the [ValueError] of
    [_find_supplies] with its message, the [AttributeError] of a failed
    [getattr] or [setattr] on a plug, and the [TypeError] of a [setattr]
    that Python rejects for the value. *)
Inductive exn :=
| ValueError (msg : string)
| AttributeError (attr : string)
| TypeError (attr : string).

(** A [Socket] instance: [_connections] is the [defaultdict(list)] from
    priority to the plugs connected at that priority (a Python dict has
    each key once, and nothing below depends on the insertion order of the
    keys, see [_compile_connections]); [_compiled_connections] is the
    flattened list. *)
Record socket_state := MkSocket {
  _connections : gmap Z (list plug_id);
  _compiled_connections : list plug_id
}.

(** A [Plug] instance: the [_supplies] dict (alias to attribute name) and
    the table [attrs] in which [getattr] and [setattr] resolve every other
    attribute name of the plug, [socket] among them. *)
Record plug_state := MkPlug {
  _supplies : gmap string string;
  attrs : gmap string value
}.

Record world := MkWorld {
  sockets : socket_id → socket_state;
  plugs : plug_id → plug_state
}.

(** ** Outcomes of a call *)

(** A call returns a value, or raises an exception; both leave a store
    behind (Python does not roll back on an exception).  [Unmodelled] is
    the outcome of the steps the typed store cannot follow: a [setattr]
    that replaces a plug's [_supplies] dict, or its whole instance dict,
    by another object. *)
Inductive result (A : Type) :=
| Return (a : A) (w : world)
| Raise (e : exn) (w : world)
| Unmodelled.
Arguments Return {A} a w.
Arguments Raise {A} e w.
Arguments Unmodelled {A}.

Definition M (A : Type) := world → result A.

Definition ret {A} (a : A) : M A := λ w, Return a w.
Definition raise {A} (e : exn) : M A := λ w, Raise e w.
Definition bind {A B} (m : M A) (k : A → M B) : M B :=
  λ w, match m w with
       | Return a w' => k a w'
       | Raise e w' => Raise e w'
       | Unmodelled => Unmodelled
       end.

(** stdpp's monad notations [x ← m; k] and [m ;; k] for [M]. *)
Global Instance M_ret : MRet M := @ret.
Global Instance M_bind : MBind M := λ A B k m, bind m k.

(** The store a call leaves behind. *)
Definition final_world {A} (r : result A) : option world :=
  match r with
  | Return _ w => Some w
  | Raise _ w => Some w
  | Unmodelled => None
  end.

(** ** Attribute access on a plug: [getattr(plug, attr)], [setattr(plug, attr, value)] *)

(** [getattr] on a plug: the [_supplies] dict, or the entry of the plug's
    attribute table, or [AttributeError].  The table stands for the
    instance attributes; what Python would find on the class only (the
    methods of [Plug], [__class__]) is not listed in it. *)
Definition getattr (p : plug_id) (attr : string) : M value :=
  λ w, if decide (attr = "_supplies") then Return (VDict (_supplies (plugs w p))) w
       else match attrs (plugs w p) !! attr with
            | Some v => Return v w
            | None => Raise (AttributeError attr) w
            end.

Definition set_plug (p : plug_id) (st : plug_state) (w : world) : world :=
  MkWorld (sockets w) (<[p := st]> (plugs w)).

Definition set_socket (s : socket_id) (st : socket_state) (w : world) : world :=
  MkWorld (<[s := st]> (sockets w)) (plugs w).

(** The attribute is an ordinary one, stored in the instance dict and
    apart from the plug's bookkeeping. *)
Definition plain (attr : string) : Prop :=
  attr ≠ "_supplies" ∧ attr ≠ "__dict__" ∧ attr ≠ "__class__" ∧ attr ≠ "__weakref__".

(** [setattr] on an instance of [Plug], a class without [__slots__] or
    [__setattr__]: an ordinary name goes into the instance dict;
    [__class__] must be a class, which no value of the model is;
    [__dict__] must be a dict; [__weakref__] is not writable. *)
Definition setattr (p : plug_id) (attr : string) (v : value) : M unit :=
  λ w, if decide (attr = "_supplies") then Unmodelled
       else if decide (attr = "__dict__") then
         match v with
         | VDict _ => Unmodelled
         | _ => Raise (TypeError attr) w
         end
       else if decide (attr = "__class__") then Raise (TypeError attr) w
       else if decide (attr = "__weakref__") then Raise (AttributeError attr) w
       else Return tt
              (set_plug p (MkPlug (_supplies (plugs w p))
                                  (<[attr := v]> (attrs (plugs w p)))) w).

(** ** class Plug *)

Module Plug.

(** [__init__]: [self.socket = None; self._supplies = {}].  The two
    assignments touch no other attribute of the object. *)
Definition __init__ (self : plug_id) : M unit :=
  λ w, Return tt
         (set_plug self (MkPlug ∅ (<["socket" := VNone]> (attrs (plugs w self)))) w).

(** The two hooks of the base class are [pass]. *)
Definition connected (self : plug_id) : M unit := ret tt.
Definition disconnected (self : plug_id) : M unit := ret tt.

(** Python's truth test on the [alias] argument: [None] and the empty
    string are the falsy ones. *)
Definition truthy (alias : option string) : bool :=
  match alias with
  | None => false
  | Some a => negb (String.eqb a "")
  end.

(** [supply(name, alias=None)]. *)
Definition supply (self : plug_id) (name : string) (alias : option string) : M unit :=
  λ w, let alias := if truthy alias then default name alias else name in
       Return tt
         (set_plug self (MkPlug (<[alias := name]> (_supplies (plugs w self)))
                                (attrs (plugs w self))) w).

End Plug.

(** The hook methods that [plug.connected()] and [plug.disconnected()]
    resolve to: a subclass of [Plug] may override them with any code. *)
Record hooks := MkHooks {
  on_connected : plug_id → M unit;
  on_disconnected : plug_id → M unit
}.

Definition base_hooks : hooks := MkHooks Plug.connected Plug.disconnected.

(** ** class Socket *)

(** [list.remove(x)]: drop the first occurrence, [None] for the
    [ValueError] of an absent element. *)
Fixpoint list_remove (x : plug_id) (l : list plug_id) : option (list plug_id) :=
  match l with
  | [] => None
  | y :: l' => if decide (y = x) then Some l'
               else cons y <$> list_remove x l'
  end.

Lemma list_remove_length x l l' :
  list_remove x l = Some l' → (length l' < length l)%nat.
Proof.
  revert l'. induction l as [|y l IH]; intros l'; simpl; [done|].
  case_decide.
  - intros [= <-]. lia.
  - destruct (list_remove x l) as [l0|]; simpl; [|done].
    intros [= <-]. specialize (IH _ eq_refl). simpl. lia.
Qed.

(** The loop [while True: try: l.remove(plug) except ValueError: break]. *)
Equations remove_until_absent (x : plug_id) (l : list plug_id) : list plug_id
  by wf (length l) lt :=
remove_until_absent x l with inspect (list_remove x l) := {
  | exist _ (Some l') Hrm => remove_until_absent x l'
  | exist _ None _ => l
}.
Next Obligation. by apply list_remove_length in Hrm. Qed.

(** [sorted(d.items())] for a dict with integer keys: tuples compare on
    their first component, and no two items share a key. *)
Definition item_le (a b : Z * list plug_id) : Prop := a.1 ≤ b.1.
Global Instance item_le_dec : RelDecision item_le.
Proof. intros a b. unfold item_le. apply _. Defined.

Definition sorted_items (d : gmap Z (list plug_id)) : list (Z * list plug_id) :=
  merge_sort item_le (map_to_list d).

(** The list that the loop of [_compile_connections] builds: it starts
    empty and is extended by the connections of each item in turn. *)
Definition compile_order (d : gmap Z (list plug_id)) : list plug_id :=
  foldl (λ compiled item, compiled ++ item.2) [] (sorted_items d).

(** The generator [_find_supplies(name)] together with the [for] loop that
    consumes it: the loop body runs at each [yield], between two steps of
    the generator, and the [raise] comes after the last connection.
    [conns] is the list object the generator iterates over, [supplied] its
    local flag, and [acc] what the consuming loop carries along. *)
Definition not_supplied (name : string) : exn :=
  ValueError ("The property `" +:+ name +:+ "` is not supplied to this socket.").

Fixpoint for_supplies {A} (name : string) (body : A → plug_id → string → M A)
    (conns : list plug_id) (supplied : bool) (acc : A) : M A :=
  match conns with
  | [] => if supplied then mret acc else raise (not_supplied name)
  | connection :: rest =>
      λ w, match _supplies (plugs w connection) !! name with
           | Some attr =>
               (acc' ← body acc connection attr;
                for_supplies name body rest true acc') w
           | None => for_supplies name body rest supplied acc w
           end
  end.

Module Socket.

Definition __init__ (self : socket_id) : M unit :=
  λ w, Return tt (set_socket self (MkSocket ∅ []) w).

(** [self._connections[priority].append(plug)] on the [defaultdict]. *)
Definition append_connection (self : socket_id) (priority : Z) (plug : plug_id) : M unit :=
  λ w, let st := sockets w self in
       Return tt
         (set_socket self
            (MkSocket (<[priority := default [] (_connections st !! priority) ++ [plug]]>
                         (_connections st))
                      (_compiled_connections st)) w).

(** The [for priority in ...] loop of [disconnect]: every bucket that
    holds [plug] loses all its occurrences. *)
Definition remove_connections (self : socket_id) (plug : plug_id) : M unit :=
  λ w, let st := sockets w self in
       Return tt
         (set_socket self
            (MkSocket ((λ l, if decide (plug ∈ l) then remove_until_absent plug l else l)
                         <$> _connections st)
                      (_compiled_connections st)) w).

(** [_compile_connections]. *)
Definition _compile_connections (self : socket_id) : M unit :=
  λ w, let conns := _connections (sockets w self) in
       Return tt (set_socket self (MkSocket conns (compile_order conns)) w).

Definition connect (H : hooks) (self : socket_id) (plug : plug_id) (priority : Z) : M unit :=
  setattr plug "socket" (VSocket self) ;;
  append_connection self priority plug ;;
  _compile_connections self ;;
  on_connected H plug.

Definition disconnect (H : hooks) (self : socket_id) (plug : plug_id) : M unit :=
  on_disconnected H plug ;;
  remove_connections self plug ;;
  _compile_connections self.

Definition _find_supplies {A} (self : socket_id) (name : string)
    (body : A → plug_id → string → M A) (acc : A) : M A :=
  λ w, for_supplies name body (_compiled_connections (sockets w self)) false acc w.

Definition __getattr__ (self : socket_id) (name : string) : M value :=
  _find_supplies self name (λ _ connection attr, getattr connection attr) VNone.

Definition __setattr__ (self : socket_id) (name : string) (v : value) : M unit :=
  _find_supplies self name (λ _ connection attr, setattr connection attr v) tt.

End Socket.

(** ** Running the code on small stores *)

(** The store in which every socket and every plug is as its [__init__]
    leaves it. *)
Definition empty_world : world :=
  MkWorld (λ _, MkSocket ∅ []) (λ _, MkPlug ∅ {[ "socket" := VNone ]}).

Definition run {A} (m : M A) : result A := m empty_world.

(** ** Vocabulary of the statements *)

(** The plug has [name] in its [_supplies]: [name in connection._supplies]. *)
Definition supplies (w : world) (name : string) (p : plug_id) : Prop :=
  is_Some (_supplies (plugs w p) !! name).

(** The loop bodies of [__getattr__] and [__setattr__]. *)
Definition read_body : value → plug_id → string → M value :=
  λ _ connection attr, getattr connection attr.
Definition write_body (v : value) : unit → plug_id → string → M unit :=
  λ _ connection attr, setattr connection attr v.

(** Every supplying connection of the scan can be read. *)
Definition readable (w : world) (name : string) (conns : list plug_id) : Prop :=
  ∀ p a, p ∈ conns → _supplies (plugs w p) !! name = Some a →
         ∃ v, getattr p a w = Return v w.

(** The plug has the attribute: [getattr] returns. *)
Definition gettable (w : world) (p : plug_id) (attr : string) : Prop :=
  ∃ v, getattr p attr w = Return v w.

(** The plugs registered at a priority, in insertion order. *)
Definition bucket (registry : gmap Z (list plug_id)) (k : Z) : list plug_id :=
  default [] (registry !! k).

(** The resolution order as the specification words it: the buckets of
    the registry, concatenated along the priority keys in ascending order,
    each bucket in its own order. *)
Definition resolution_order_spec (registry : gmap Z (list plug_id))
    (order : list plug_id) : Prop :=
  ∃ keys : list Z,
    StronglySorted Z.lt keys ∧
    (∀ k, k ∈ keys ↔ is_Some (registry !! k)) ∧
    order = concat (bucket registry <$> keys).

(** The registry after [self._connections[priority].append(plug)]. *)
Definition appended (d : gmap Z (list plug_id)) (priority : Z) (plug : plug_id) :
    gmap Z (list plug_id) :=
  <[priority := default [] (d !! priority) ++ [plug]]> d.

(** The registry after the removal loop of [disconnect]. *)
Definition removed (d : gmap Z (list plug_id)) (plug : plug_id) : gmap Z (list plug_id) :=
  (λ l, if decide (plug ∈ l) then remove_until_absent plug l else l) <$> d.

(** The socket's two fields agree: the compiled list is the order of the
    registry. *)
Definition compiled_ok (w : world) (s : socket_id) : Prop :=
  resolution_order_spec (_connections (sockets w s)) (_compiled_connections (sockets w s)).

(** The plugs the socket consults, and the names they offer. *)
Definition order (w : world) (s : socket_id) : list plug_id :=
  _compiled_connections (sockets w s).

Definition attached (w : world) (s : socket_id) (p : plug_id) : Prop :=
  p ∈ order w s.

Definition supplied_on (w : world) (s : socket_id) (name : string) : Prop :=
  ∃ p, attached w s p ∧ supplies w name p.

(** Every supplying connection of the scan routes [name] to an ordinary
    attribute. *)
Definition routes_plain (w : world) (name : string) (conns : list plug_id) : Prop :=
  ∀ p a, p ∈ conns → _supplies (plugs w p) !! name = Some a → plain a.

(** What a write that found a supplier leaves behind: the value in the
    routed attribute of every supplying connection, and nothing else
    changed. *)
Record written (name : string) (v : value) (conns : list plug_id) (w w' : world) : Prop := {
  written_sockets : sockets w' = sockets w;
  written_supplies : ∀ p, _supplies (plugs w' p) = _supplies (plugs w p);
  written_value : ∀ p a, p ∈ conns → _supplies (plugs w p) !! name = Some a →
                         attrs (plugs w' p) !! a = Some v;
  written_frame : ∀ p b, ¬ (p ∈ conns ∧ _supplies (plugs w p) !! name = Some b) →
                         attrs (plugs w' p) !! b = attrs (plugs w p) !! b
}.

(** The key under which [supply(name, alias)] files the name: the alias
    when one is given, the name itself otherwise. *)
Definition supplied_key (name : string) (alias : option string) : string :=
  match alias with
  | Some a => if decide (a = "") then name else a
  | None => name
  end.

(** ** Concrete scenarios *)

(** The store after running [m] from the initial store. *)
Definition after {A} (m : M A) : world :=
  default empty_world (final_world (run m)).

Definition hub : socket_id := 0%nat.
Definition plugA : plug_id := 1%nat.
Definition plugB : plug_id := 2%nat.

(** [p = Plug(); p.supply('z'); s = Socket(); s.connect(p)]: the plug
    offers [z] but never assigned [self.z]. *)
Definition unset_attribute : M unit :=
  Plug.__init__ plugA ;; Plug.supply plugA "z" None ;;
  Socket.__init__ hub ;; Socket.connect base_hooks hub plugA 0.

(** [A] at priority 0 offers its unassigned [a] as [x], [B] at priority 1
    offers its [b = 7] as [x]. *)
Definition first_unset : M unit :=
  Plug.__init__ plugA ;; Plug.supply plugA "a" (Some "x") ;;
  Plug.__init__ plugB ;; Plug.supply plugB "b" (Some "x") ;;
  setattr plugB "b" (VInt 7) ;;
  Socket.__init__ hub ;;
  Socket.connect base_hooks hub plugA 0 ;; Socket.connect base_hooks hub plugB 1.

(** Both plugs offer [y], from the attributes [ya] and [yb]; [A] is
    connected twice. *)
Definition two_suppliers : M unit :=
  Plug.__init__ plugA ;; Plug.supply plugA "ya" (Some "y") ;;
  setattr plugA "ya" (VInt 1) ;;
  Plug.__init__ plugB ;; Plug.supply plugB "yb" (Some "y") ;;
  setattr plugB "yb" (VInt 2) ;;
  Socket.__init__ hub ;;
  Socket.connect base_hooks hub plugA 3 ;; Socket.connect base_hooks hub plugB 0 ;;
  Socket.connect base_hooks hub plugA (-2).

(** [A] offers [x] and is connected three times, twice at priority 0 and
    once at priority 1; [B] offers [w]. *)
Definition connected_thrice : M unit :=
  Plug.__init__ plugA ;; setattr plugA "x" (VInt 1) ;; Plug.supply plugA "x" None ;;
  Plug.__init__ plugB ;; setattr plugB "w" (VInt 2) ;; Plug.supply plugB "w" None ;;
  Socket.__init__ hub ;;
  Socket.connect base_hooks hub plugA 0 ;; Socket.connect base_hooks hub plugB 0 ;;
  Socket.connect base_hooks hub plugA 0 ;; Socket.connect base_hooks hub plugA 1.

(** [p.hp = 10; s.connect(p); p.supply('hp', alias='health')]. *)
Definition aliased : M unit :=
  Plug.__init__ plugA ;; setattr plugA "hp" (VInt 10) ;;
  Socket.__init__ hub ;; Socket.connect base_hooks hub plugA 0.

(** Both plugs offer [x] and have the attribute behind it; the socket is
    fresh. *)
Definition both_supply : M unit :=
  Plug.__init__ plugA ;; Plug.supply plugA "a" (Some "x") ;;
  setattr plugA "a" (VInt 1) ;;
  Plug.__init__ plugB ;; Plug.supply plugB "b" (Some "x") ;;
  setattr plugB "b" (VInt 2) ;;
  Socket.__init__ hub.

(** As [both_supply], with [A] connected at priority 0. *)
Definition one_connected : M unit :=
  both_supply ;; Socket.connect base_hooks hub plugA 0.

(** A plug that no scenario connects. *)
Definition plugC : plug_id := 3%nat.

(** [A] at priority 0 offers its [__class__] as [kind], [B] at priority 1
    offers its [kb = 0] as [kind]. *)
Definition class_target : M unit :=
  Plug.__init__ plugA ;; Plug.supply plugA "__class__" (Some "kind") ;;
  Plug.__init__ plugB ;; Plug.supply plugB "kb" (Some "kind") ;;
  setattr plugB "kb" (VInt 0) ;;
  Socket.__init__ hub ;;
  Socket.connect base_hooks hub plugA 0 ;; Socket.connect base_hooks hub plugB 1.

(** * Proofs *)

(** ** Facts about the monad *)

Lemma bind_Return {A B} (m : M A) (k : A → M B) w a w' :
  m w = Return a w' → (m ≫= k) w = k a w'.
Proof. intros Hm. unfold mbind, M_bind, bind. by rewrite Hm. Qed.

Lemma bind_Raise {A B} (m : M A) (k : A → M B) w e w' :
  m w = Raise e w' → (m ≫= k) w = Raise e w'.
Proof. intros Hm. unfold mbind, M_bind, bind. by rewrite Hm. Qed.


Lemma Return_inj {A} (a b : A) w w' : Return a w = Return b w' → a = b ∧ w = w'.
Proof. by intros [= -> ->]. Qed.

(** ** Facts about [getattr] and [setattr] *)

(** [getattr] either returns or raises [AttributeError], in the store it
    started from. *)
Lemma getattr_cases p attr w :
  (∃ v, getattr p attr w = Return v w) ∨
  getattr p attr w = Raise (AttributeError attr) w.
Proof.
  unfold getattr. case_decide; [by left; eexists|].
  destruct (attrs (plugs w p) !! attr); [by left; eexists | by right].
Qed.

Lemma setattr_Return p attr v w :
  plain attr →
  setattr p attr v w =
    Return tt (set_plug p (MkPlug (_supplies (plugs w p))
                                  (<[attr := v]> (attrs (plugs w p)))) w).
Proof.
  intros (H1 & H2 & H3 & H4). unfold setattr. by rewrite !decide_False.
Qed.

Lemma plain_socket : plain "socket".
Proof. repeat split; discriminate. Qed.


Lemma plugs_set_plug p st w q :
  plugs (set_plug p st w) q = if decide (p = q) then st else plugs w q.
Proof.
  unfold set_plug; simpl. case_decide as Hpq.
  - subst. apply fn_lookup_insert.
  - by apply fn_lookup_insert_ne.
Qed.

Lemma sockets_set_socket s st w t :
  sockets (set_socket s st w) t = if decide (s = t) then st else sockets w t.
Proof.
  unfold set_socket; simpl. case_decide as Hst.
  - subst. apply fn_lookup_insert.
  - by apply fn_lookup_insert_ne.
Qed.

(** ** The scan of [_find_supplies] *)

Global Instance supplies_dec w name p : Decision (supplies w name p).
Proof. unfold supplies. apply _. Defined.

(** No connection supplies [name]: the loop body never runs, and the
    generator raises unless its flag was already set. *)
Lemma for_supplies_no_match {A} name (body : A → plug_id → string → M A) conns supplied acc w :
  Forall (λ p, ¬ supplies w name p) conns →
  for_supplies name body conns supplied acc w =
    if supplied then Return acc w else Raise (not_supplied name) w.
Proof.
  induction 1 as [|p conns Hp _ IH]; simpl; [by destruct supplied|].
  destruct (_supplies (plugs w p) !! name) as [a|] eqn:Ha; [|done].
  destruct Hp. by exists a.
Qed.

(** A read never changes the store, whatever its outcome. *)
Lemma for_supplies_read_world name conns supplied acc w :
  final_world (for_supplies name read_body conns supplied acc w) = Some w.
Proof.
  revert supplied acc. induction conns as [|p conns IH]; intros supplied acc; simpl.
  - by destruct supplied.
  - destruct (_supplies (plugs w p) !! name) as [a|]; [|apply IH].
    destruct (getattr_cases p a w) as [[v Hv]|Hv].
    + erewrite bind_Return by exact Hv. apply IH.
    + erewrite bind_Raise by exact Hv. done.
Qed.

(** Once the flag is set the scan cannot end in the [ValueError]. *)
Lemma for_supplies_read_flagged name conns acc w msg w' :
  for_supplies name read_body conns true acc w ≠ Raise (ValueError msg) w'.
Proof.
  revert acc. induction conns as [|p conns IH]; intros acc; simpl; [done|].
  destruct (_supplies (plugs w p) !! name) as [a|]; [|apply IH].
  destruct (getattr_cases p a w) as [[v Hv]|Hv].
  - erewrite bind_Return by exact Hv. apply IH.
  - erewrite bind_Raise by exact Hv. done.
Qed.

(** A scan that ends in the [ValueError] met no supplying connection. *)
Lemma for_supplies_read_ValueError name conns supplied acc w msg w' :
  for_supplies name read_body conns supplied acc w = Raise (ValueError msg) w' →
  Forall (λ p, ¬ supplies w name p) conns.
Proof.
  revert supplied acc. induction conns as [|p conns IH]; intros supplied acc; simpl.
  - constructor.
  - destruct (_supplies (plugs w p) !! name) as [a|] eqn:Ha.
    + unfold read_body at 1.
      destruct (getattr_cases p a w) as [[v Hv]|Hv].
      * erewrite bind_Return by exact Hv.
        intros Hraise. by apply for_supplies_read_flagged in Hraise.
      * by erewrite bind_Raise by exact Hv.
    + intros Hraise. constructor; [|by eapply IH].
      intros [b Hb]. congruence.
Qed.

(** The read is the [getattr] on the last supplying connection: its value,
    or its [AttributeError]. *)
Lemma for_supplies_read_last name l1 p l2 a supplied acc w :
  readable w name l1 →
  _supplies (plugs w p) !! name = Some a →
  Forall (λ q, ¬ supplies w name q) l2 →
  for_supplies name read_body (l1 ++ p :: l2) supplied acc w = getattr p a w.
Proof.
  intros Hrd Ha Hl2. revert supplied acc.
  induction l1 as [|q l1 IH]; intros supplied acc; simpl.
  - rewrite Ha. unfold read_body at 1.
    destruct (getattr_cases p a w) as [[v Hv]|Hv].
    + erewrite bind_Return by exact Hv. by rewrite for_supplies_no_match.
    + erewrite bind_Raise by exact Hv. done.
  - assert (readable w name l1) as Hrd'.
    { intros r b Hr. apply Hrd. by right. }
    destruct (_supplies (plugs w q) !! name) as [b|] eqn:Hb; [|by apply IH].
    destruct (Hrd q b) as [u Hu]; [by left | done |].
    unfold read_body at 1. erewrite bind_Return by exact Hu. by apply IH.
Qed.

(** Splitting a list at its last element that satisfies a decidable
    property. *)
Lemma last_match_split {A} (P : A → Prop) `{∀ x, Decision (P x)} (l : list A) :
  Exists P l →
  ∃ l1 x l2, l = l1 ++ x :: l2 ∧ P x ∧ Forall (λ y, ¬ P y) l2.
Proof.
  induction l as [|y l IH]; intros Hex; [by apply Exists_nil in Hex|].
  destruct (decide (Exists P l)) as [Hl|Hl].
  - destruct (IH Hl) as (l1 & x & l2 & -> & Hx & Hl2).
    by exists (y :: l1), x, l2.
  - apply Exists_cons in Hex as [Hy|Hex]; [|done].
    exists [], y, l. split_and!; [done..|].
    apply Forall_forall. intros z Hz Pz. apply Hl, Exists_exists. eauto.
Qed.

(** ** The compiled order *)

Global Instance item_le_total : Total item_le.
Proof. intros a b. unfold item_le. lia. Qed.
Global Instance item_le_trans : Transitive item_le.
Proof. intros a b c. unfold item_le. lia. Qed.

Lemma sorted_items_perm d : sorted_items d ≡ₚ map_to_list d.
Proof. apply merge_sort_Permutation. Qed.

Lemma elem_of_sorted_items d k l : (k, l) ∈ sorted_items d ↔ d !! k = Some l.
Proof. rewrite sorted_items_perm. apply elem_of_map_to_list. Qed.

Lemma StronglySorted_le_lt (l : list Z) :
  StronglySorted Z.le l → NoDup l → StronglySorted Z.lt l.
Proof.
  induction 1 as [|x l Hl IH Hx]; intros Hnd; [constructor|].
  apply NoDup_cons in Hnd as [Hxl Hnd]. constructor; [by apply IH|].
  apply Forall_forall. intros y Hy.
  pose proof (proj1 (Forall_forall _ _) Hx y Hy).
  assert (x ≠ y) by (intros ->; done). lia.
Qed.

Lemma sorted_items_keys d : StronglySorted Z.lt (sorted_items d).*1.
Proof.
  apply StronglySorted_le_lt.
  - assert (StronglySorted item_le (sorted_items d)) as Hs.
    { apply StronglySorted_merge_sort; apply _. }
    induction Hs as [|x l Hl IH Hx]; simpl; constructor; [done|].
    apply Forall_fmap. by eapply Forall_impl.
  - rewrite sorted_items_perm. apply NoDup_fst_map_to_list.
Qed.

Lemma elem_of_concat {A} (x : A) (ls : list (list A)) :
  x ∈ concat ls ↔ ∃ l, x ∈ l ∧ l ∈ ls.
Proof.
  induction ls as [|l ls IH]; simpl.
  - split; [by intros ?%elem_of_nil | by intros (l & _ & ?%elem_of_nil)].
  - rewrite elem_of_app, IH. split.
    + intros [Hx|(l' & Hx & Hl')]; [exists l | exists l']; split; try done.
      * by left.
      * by right.
    + intros (l' & Hx & [->|Hl']%elem_of_cons); [by left | right; eauto].
Qed.

Lemma foldl_extend (items : list (Z * list plug_id)) (compiled : list plug_id) :
  foldl (λ compiled item, compiled ++ item.2) compiled items
  = compiled ++ concat items.*2.
Proof.
  revert compiled. induction items as [|it items IH]; intros compiled; simpl.
  - by rewrite app_nil_r.
  - by rewrite IH, <-app_assoc.
Qed.

Lemma compile_order_concat d :
  compile_order d = concat (bucket d <$> (sorted_items d).*1).
Proof.
  unfold compile_order. rewrite foldl_extend. simpl. f_equal.
  rewrite <-list_fmap_compose. apply list_fmap_ext. intros i [k l] Hi.
  simpl. unfold bucket.
  assert ((k, l) ∈ sorted_items d) as Hin by by eapply list_elem_of_lookup_2.
  apply elem_of_sorted_items in Hin. by rewrite Hin.
Qed.

(** [_compile_connections] computes the order the specification
    describes. *)
Lemma compile_order_spec d : resolution_order_spec d (compile_order d).
Proof.
  exists (sorted_items d).*1. split_and!.
  - apply sorted_items_keys.
  - intros k. rewrite list_elem_of_fmap. split.
    + intros [[k' l] [-> Hin]]. apply elem_of_sorted_items in Hin. by exists l.
    + intros [l Hl]. exists (k, l). split; [done|]. by apply elem_of_sorted_items.
  - apply compile_order_concat.
Qed.

Lemma elem_of_resolution_order d order p :
  resolution_order_spec d order →
  p ∈ order ↔ ∃ k l, d !! k = Some l ∧ p ∈ l.
Proof.
  intros (keys & _ & Hdom & ->). rewrite elem_of_concat. split.
  - intros (l & Hp & Hl). apply list_elem_of_fmap in Hl as (k & -> & Hk).
    apply Hdom in Hk as [l Hl]. exists k, l. split; [done|].
    unfold bucket in Hp. by rewrite Hl in Hp.
  - intros (k & l & Hl & Hp). exists l. split; [done|].
    apply list_elem_of_fmap. exists k. split.
    + unfold bucket. by rewrite Hl.
    + apply Hdom. by exists l.
Qed.

Lemma elem_of_compile_order d p :
  p ∈ compile_order d ↔ ∃ k l, d !! k = Some l ∧ p ∈ l.
Proof. apply elem_of_resolution_order, compile_order_spec. Qed.

(** Where the last supplying connection of the order sits in the
    registry: no supplying plug is registered at a higher priority, nor
    later in the same bucket. *)
Lemma last_supplier_position d order (P : plug_id → Prop) `{∀ x, Decision (P x)} :
  resolution_order_spec d order →
  Exists P order →
  ∃ k l i p l1 l2,
    d !! k = Some l ∧ l !! i = Some p ∧ P p ∧
    order = l1 ++ p :: l2 ∧ Forall (λ q, ¬ P q) l2 ∧
    ∀ k' l' j q, d !! k' = Some l' → l' !! j = Some q → P q →
                 k' < k ∨ (k' = k ∧ (j ≤ i)%nat).
Proof.
  intros (keys & Hsort & Hdom & ->) Hex.
  assert (Exists (λ k, Exists P (bucket d k)) keys) as Hk.
  { apply Exists_exists in Hex as (p & Hp & HP).
    apply elem_of_concat in Hp as (l & Hpl & Hl).
    apply list_elem_of_fmap in Hl as (k & -> & Hk).
    apply Exists_exists. exists k. split; [done|].
    apply Exists_exists. eauto. }
  apply last_match_split in Hk as (ks1 & k & ks2 & -> & Hbk & Hks2); [|apply _].
  apply last_match_split in Hbk as (b1 & p & b2 & Hb & HP & Hb2); [|apply _].
  assert (d !! k = Some (b1 ++ p :: b2)) as Hdk.
  { destruct (proj1 (Hdom k)) as [l Hl].
    { apply elem_of_app. right. by left. }
    unfold bucket in Hb. rewrite Hl in Hb. simpl in Hb. by subst. }
  exists k, (b1 ++ p :: b2), (length b1), p,
    (concat (bucket d <$> ks1) ++ b1), (b2 ++ concat (bucket d <$> ks2)).
  split_and!; [done| |done| | |].
  - by rewrite lookup_app_r, Nat.sub_diag.
  - rewrite fmap_app, concat_app. simpl. rewrite Hb.
    by rewrite <-!app_assoc.
  - apply Forall_app. split; [done|].
    apply Forall_forall. intros q Hq HPq.
    apply elem_of_concat in Hq as (l & Hql & Hl).
    apply list_elem_of_fmap in Hl as (k' & -> & Hk').
    apply (proj1 (Forall_forall _ _) Hks2 k' Hk').
    apply Exists_exists. eauto.
  - intros k' l' j q Hl' Hj HPq.
    assert (k' ∈ ks1 ++ k :: ks2) as Hin by (apply Hdom; eauto).
    apply elem_of_app in Hin as [Hin|Hin].
    + left. eapply (StronglySorted_app_1_elem_of Z.lt); [exact Hsort|done|by left].
    + apply elem_of_cons in Hin as [->|Hin].
      * right. split; [done|].
        rewrite Hdk in Hl'. injection Hl' as <-.
        destruct (decide (j ≤ length b1)%nat) as [|Hgt]; [done|].
        exfalso. rewrite lookup_app_r in Hj by lia.
        destruct (j - length b1)%nat as [|n] eqn:Hn; [lia|]. simpl in Hj.
        apply list_elem_of_lookup_2 in Hj.
        by apply (proj1 (Forall_forall _ _) Hb2 q Hj).
      * exfalso. apply (proj1 (Forall_forall _ _) Hks2 k' Hin).
        apply Exists_exists. exists q. split; [|done].
        unfold bucket. rewrite Hl'. simpl. by eapply list_elem_of_lookup_2.
Qed.

(** ** Removing a plug from a bucket *)

Lemma list_remove_None x l : list_remove x l = None ↔ x ∉ l.
Proof.
  induction l as [|y l IH]; simpl.
  - split; [intros _; apply not_elem_of_nil | done].
  - rewrite not_elem_of_cons. case_decide as Hy.
    + split; [done | intros [? _]; congruence].
    + destruct (list_remove x l); simpl.
      * split; [done|]. intros [_ Hx]. by apply IH in Hx.
      * split; [|done]. intros _. split; [congruence | by apply IH].
Qed.

Lemma list_remove_filter x l l' :
  list_remove x l = Some l' → filter (λ y, y ≠ x) l' = filter (λ y, y ≠ x) l.
Proof.
  revert l'. induction l as [|y l IH]; intros l'; simpl; [done|].
  case_decide as Hy.
  - intros [= <-]. subst. by rewrite filter_cons_False by (intros ?; done).
  - destruct (list_remove x l) as [l0|]; simpl; [|done].
    intros [= <-]. rewrite !filter_cons_True by done. f_equal. by apply IH.
Qed.

Lemma filter_absent x (l : list plug_id) : x ∉ l → filter (λ y, y ≠ x) l = l.
Proof.
  induction l as [|y l IH]; [done|].
  intros [Hy Hl]%not_elem_of_cons.
  rewrite filter_cons_True by congruence. f_equal. by apply IH.
Qed.

(** The [while] loop leaves the bucket without the plug, the other
    connections in their order. *)
Lemma remove_until_absent_filter x l :
  remove_until_absent x l = filter (λ y, y ≠ x) l.
Proof.
  funelim (remove_until_absent x l).
  - rewrite H. by apply list_remove_filter.
  - symmetry. apply filter_absent. by apply list_remove_None.
Qed.

Lemma remove_until_absent_not_elem x l : x ∉ remove_until_absent x l.
Proof. rewrite remove_until_absent_filter, list_elem_of_filter. by intros [? _]. Qed.

(** ** The scan of a write *)

Lemma for_supplies_write name v conns supplied w :
  routes_plain w name conns →
  supplied = true ∨ Exists (supplies w name) conns →
  ∃ w', for_supplies name (write_body v) conns supplied tt w = Return tt w' ∧
        written name v conns w w'.
Proof.
  revert supplied w. induction conns as [|p conns IH]; intros supplied w Hkeep Hsup.
  - destruct Hsup as [->|Hex]; [|by apply Exists_nil in Hex].
    exists w. split; [done|]. split; try done. by intros p a ?%elem_of_nil.
  - simpl. destruct (_supplies (plugs w p) !! name) as [a|] eqn:Ha.
    + assert (plain a) as Hne by (apply (Hkeep p); [by left | done]).
      unfold write_body at 1. erewrite bind_Return by by apply setattr_Return.
      set (w1 := set_plug p _ w).
      assert (∀ q, _supplies (plugs w1 q) = _supplies (plugs w q)) as Hsame.
      { intros q. unfold w1. rewrite plugs_set_plug. case_decide; by subst. }
      destruct (IH true w1) as (w' & Hrun & Hw'); [|by left|].
      { intros q b Hq. rewrite Hsame. apply Hkeep. by right. }
      exists w'. split; [exact Hrun|].
      destruct Hw' as [Hs Hsp Hval Hfr]. split.
      * done.
      * intros q. by rewrite Hsp.
      * intros q b Hq Hb.
        destruct (decide (q ∈ conns)) as [Hin|Hnin].
        { apply Hval; [done|]. by rewrite Hsame. }
        apply elem_of_cons in Hq as [->|?]; [|done].
        rewrite Ha in Hb. injection Hb as <-.
        rewrite Hfr by (intros [? _]; done).
        unfold w1. rewrite plugs_set_plug, decide_True by done. simpl.
        apply lookup_insert_eq.
      * intros q b Hnot. rewrite Hfr.
        2:{ intros [Hq Hb]. apply Hnot. split; [by right|]. by rewrite <-Hsame. }
        unfold w1. rewrite plugs_set_plug. case_decide as Hpq; [|done].
        subst q. simpl. apply lookup_insert_ne. intros <-.
        apply Hnot. split; [by left | done].
    + destruct (IH supplied w) as (w' & Hrun & Hw').
      { intros q b Hq. apply Hkeep. by right. }
      { destruct Hsup as [?|Hex]; [by left|]. right.
        apply Exists_cons in Hex as [[b Hb]|?]; [congruence | done]. }
      exists w'. split; [exact Hrun|].
      destruct Hw' as [Hs Hsp Hval Hfr]. split; try done.
      * intros q b Hq Hb. apply Hval; [|done].
        apply elem_of_cons in Hq as [->|?]; [congruence | done].
      * intros q b Hnot. apply Hfr. intros [Hq Hb]. apply Hnot.
        split; [by right | done].
Qed.


(** ** The states [connect] and [disconnect] go through *)

(** [connect] is its three assignments followed by the hook: the hook
    runs last, in the store [w1] described here. *)
Lemma connect_hook_state s p priority w :
  ∃ w1,
    (∀ H', Socket.connect H' s p priority w = on_connected H' p w1) ∧
    plugs w1 = <[p := MkPlug (_supplies (plugs w p))
                             (<["socket" := VSocket s]> (attrs (plugs w p)))]> (plugs w) ∧
    sockets w1 s =
      (let d := appended (_connections (sockets w s)) priority p in
       MkSocket d (compile_order d)) ∧
    (∀ t, t ≠ s → sockets w1 t = sockets w t).
Proof.
  eexists. split_and!.
  - intros H'. unfold Socket.connect.
    erewrite bind_Return by apply setattr_Return, plain_socket.
    erewrite bind_Return by reflexivity.
    erewrite bind_Return by reflexivity.
    reflexivity.
  - reflexivity.
  - unfold set_socket, set_plug. simpl.
    repeat (rewrite fn_lookup_insert; simpl). reflexivity.
  - intros t Ht. by rewrite !sockets_set_socket, !decide_False by done.
Qed.

(** [disconnect] runs the hook first, in the store it was called in; when
    the hook returns, the removal and the recompilation follow. *)
Lemma disconnect_after_hook H s p w w1 :
  on_disconnected H p w = Return tt w1 →
  ∃ w',
    Socket.disconnect H s p w = Return tt w' ∧
    plugs w' = plugs w1 ∧
    sockets w' s =
      (let d := removed (_connections (sockets w1 s)) p in
       MkSocket d (compile_order d)) ∧
    (∀ t, t ≠ s → sockets w' t = sockets w1 t).
Proof.
  intros Hhook. eexists. split_and!.
  - unfold Socket.disconnect.
    erewrite bind_Return by exact Hhook.
    erewrite bind_Return by reflexivity.
    reflexivity.
  - reflexivity.
  - unfold set_socket, set_plug. simpl.
    repeat (rewrite fn_lookup_insert; simpl). reflexivity.
  - intros t Ht. by rewrite !sockets_set_socket, !decide_False by done.
Qed.

Lemma disconnect_hook_first H s p w :
  Socket.disconnect H s p w =
    match on_disconnected H p w with
    | Return _ w1 =>
        (Socket.remove_connections s p ;; Socket._compile_connections s) w1
    | Raise e w1 => Raise e w1
    | Unmodelled => Unmodelled
    end.
Proof. reflexivity. Qed.

Lemma removed_lookup d p k l : removed d p !! k = Some l → p ∉ l.
Proof.
  unfold removed. rewrite lookup_fmap.
  destruct (d !! k) as [l0|]; simpl; [|done].
  intros [= <-]. case_decide; [apply remove_until_absent_not_elem | done].
Qed.

Lemma removed_lookup_other d p k l :
  d !! k = Some l → removed d p !! k = Some (filter (λ q, q ≠ p) l).
Proof.
  intros Hl. unfold removed. rewrite lookup_fmap, Hl. simpl. f_equal.
  case_decide; [apply remove_until_absent_filter|]. by rewrite filter_absent.
Qed.

(** ** Attribute access on the socket *)

(** On a socket whose compiled list is up to date, the attached plugs are
    the plugs of the registry. *)
Lemma attached_registry w s p :
  compiled_ok w s →
  attached w s p ↔ ∃ k l, _connections (sockets w s) !! k = Some l ∧ p ∈ l.
Proof. intros Hok. by apply elem_of_resolution_order. Qed.

Lemma supplied_on_Exists w s name :
  supplied_on w s name ↔ Exists (supplies w name) (order w s).
Proof.
  unfold supplied_on, attached. rewrite Exists_exists.
  split; intros (p & Hp & Hs); by exists p.
Qed.

Lemma not_supplied_on_Forall w s name :
  ¬ supplied_on w s name ↔ Forall (λ p, ¬ supplies w name p) (order w s).
Proof.
  unfold supplied_on, attached. rewrite Forall_forall. split.
  - intros Hno p Hp Hs. apply Hno. by exists p.
  - intros Hall (p & Hp & Hs). by apply (Hall p).
Qed.

Lemma getattr_unsupplied w s name :
  ¬ supplied_on w s name →
  Socket.__getattr__ s name w = Raise (not_supplied name) w.
Proof.
  intros Hno%not_supplied_on_Forall.
  unfold Socket.__getattr__, Socket._find_supplies.
  by rewrite for_supplies_no_match.
Qed.

Lemma setattr_unsupplied w s name v :
  ¬ supplied_on w s name →
  Socket.__setattr__ s name v w = Raise (not_supplied name) w.
Proof.
  intros Hno%not_supplied_on_Forall.
  unfold Socket.__setattr__, Socket._find_supplies.
  by rewrite for_supplies_no_match.
Qed.

(** A read of a supplied name is the [getattr] on the last supplier, as
    long as the suppliers before it have their attribute. *)
Lemma getattr_last_supplier w s name l1 p l2 a :
  order w s = l1 ++ p :: l2 →
  readable w name l1 →
  _supplies (plugs w p) !! name = Some a →
  Forall (λ q, ¬ supplies w name q) l2 →
  Socket.__getattr__ s name w = getattr p a w.
Proof.
  intros Hord Hrd Ha Hl2.
  unfold Socket.__getattr__, Socket._find_supplies.
  fold (order w s). rewrite Hord. by apply for_supplies_read_last.
Qed.

Lemma setattr_supplied w s name v :
  supplied_on w s name →
  routes_plain w name (order w s) →
  ∃ w', Socket.__setattr__ s name v w = Return tt w' ∧
        written name v (order w s) w w'.
Proof.
  intros Hsup%supplied_on_Exists Hkeep.
  unfold Socket.__setattr__, Socket._find_supplies.
  apply for_supplies_write; [done | by right].
Qed.

(** ** The scenarios evaluated *)

(** Case analysis on a membership in an explicit list. *)
Ltac elem_of_cases H :=
  repeat (apply elem_of_cons in H as [->|H]);
  [.. | exfalso; exact (proj1 (elem_of_nil _) H)].

Example unset_attribute_order : order (after unset_attribute) hub = [plugA].
Proof. vm_compute. reflexivity. Qed.

Example first_unset_order : order (after first_unset) hub = [plugA; plugB].
Proof. vm_compute. reflexivity. Qed.

Example two_suppliers_order :
  order (after two_suppliers) hub = [plugA; plugB; plugA].
Proof. vm_compute. reflexivity. Qed.

Example two_suppliers_read :
  Socket.__getattr__ hub "y" (after two_suppliers) = Return (VInt 1) (after two_suppliers).
Proof. vm_compute. reflexivity. Qed.

(** ** The claims *)

(** *** C10: reads do not mutate *)

(** C10. For every socket and every name supplied by at least one attached
    plug, a read of that name leaves the store as it was: the registry and
    the compiled order of every socket, and the [_supplies] dict and the
    attributes (the [socket] back-reference among them) of every plug. *)
Theorem C10_read_leaves_store (w : world) (s : socket_id) (name : string) :
  supplied_on w s name →
  final_world (Socket.__getattr__ s name w) = Some w.
Proof. intros _. apply for_supplies_read_world. Qed.

Lemma C10_read_leaves_store_witness :
  supplied_on (after two_suppliers) hub "y" ∧
  final_world (Socket.__getattr__ hub "y" (after two_suppliers))
  = Some (after two_suppliers).
Proof.
  assert (supplied_on (after two_suppliers) hub "y") as Hsup.
  { exists plugB. split.
    - unfold attached. rewrite two_suppliers_order. right. left.
    - exists "yb". vm_compute. reflexivity. }
  split; [exact Hsup|].
  exact (C10_read_leaves_store (after two_suppliers) hub "y" Hsup).
Defined.

(** *** C2: writing a name nobody supplies *)

(** C2, as stated, fails: on a socket without plugs the write [s.x = 1]
    raises the [ValueError] of [_find_supplies]. *)
Lemma C2_counterexample :
  ¬ supplied_on (after (Socket.__init__ hub)) hub "x" ∧
  Socket.__setattr__ hub "x" (VInt 1) (after (Socket.__init__ hub))
  = Raise (ValueError "The property `x` is not supplied to this socket.")
          (after (Socket.__init__ hub)).
Proof.
  split.
  - intros (p & Hp & _). unfold attached in Hp.
    change (order (after (Socket.__init__ hub)) hub) with (@nil plug_id) in Hp.
    exact (proj1 (elem_of_nil _) Hp).
  - vm_compute. reflexivity.
Qed.

(** C2, amended. For every socket and every name that no attached plug
    supplies, a write of that name raises the unsupplied-name error, and
    leaves the socket and all plugs unchanged. *)
Theorem C2_write_unsupplied (w : world) (s : socket_id) (name : string) (v : value) :
  ¬ supplied_on w s name →
  Socket.__setattr__ s name v w = Raise (not_supplied name) w.
Proof. apply setattr_unsupplied. Qed.

Lemma C2_write_unsupplied_witness :
  ¬ supplied_on (after two_suppliers) hub "q" ∧
  Socket.__setattr__ hub "q" (VInt 1) (after two_suppliers)
  = Raise (not_supplied "q") (after two_suppliers).
Proof.
  assert (¬ supplied_on (after two_suppliers) hub "q") as Hno.
  { apply not_supplied_on_Forall. rewrite two_suppliers_order.
    repeat constructor; intros [a Ha]; vm_compute in Ha; discriminate. }
  split; [exact Hno|].
  exact (C2_write_unsupplied (after two_suppliers) hub "q" (VInt 1) Hno).
Defined.

(** *** C3: reading a name nobody supplies *)

(** C3, as stated, fails in its second half: the plug offers [z], so the
    read is not the unsupplied-name error, but it does not succeed
    either; the [getattr] on the plug raises. *)
Lemma C3_counterexample :
  supplied_on (after unset_attribute) hub "z" ∧
  Socket.__getattr__ hub "z" (after unset_attribute)
  = Raise (AttributeError "z") (after unset_attribute).
Proof.
  split.
  - exists plugA. split.
    + unfold attached. rewrite unset_attribute_order. left.
    + exists "z". vm_compute. reflexivity.
  - vm_compute. reflexivity.
Qed.

(** C3, amended. A read raises the unsupplied-name error exactly when no
    attached plug has the name in its [_supplies], in the store of the
    access; otherwise it returns a value whenever every supplying plug has
    the attribute it routes the name to. *)
Theorem C3_read_unsupplied (w : world) (s : socket_id) (name : string) :
  ((∃ msg w', Socket.__getattr__ s name w = Raise (ValueError msg) w')
     ↔ ¬ supplied_on w s name) ∧
  (¬ supplied_on w s name →
     Socket.__getattr__ s name w = Raise (not_supplied name) w) ∧
  (supplied_on w s name → readable w name (order w s) →
     ∃ v, Socket.__getattr__ s name w = Return v w).
Proof.
  split_and!.
  - split.
    + intros (msg & w' & Hraise).
      apply not_supplied_on_Forall.
      by eapply for_supplies_read_ValueError.
    + intros Hno. eexists _, _. by apply getattr_unsupplied.
  - apply getattr_unsupplied.
  - intros Hsup Hrd. apply supplied_on_Exists in Hsup.
    apply last_match_split in Hsup as (l1 & p & l2 & Hord & [a Ha] & Hl2);
      [|apply _].
    destruct (Hrd p a) as [v Hv]; [|done|].
    { unfold attached. rewrite Hord. apply elem_of_app. right. left. }
    exists v. rewrite <-Hv. eapply getattr_last_supplier; try done.
    intros q b Hq. apply Hrd. rewrite Hord. apply elem_of_app. by left.
Qed.

Lemma C3_read_unsupplied_witness :
  supplied_on (after two_suppliers) hub "y" ∧
  readable (after two_suppliers) "y" (order (after two_suppliers) hub) ∧
  ∃ v, Socket.__getattr__ hub "y" (after two_suppliers)
       = Return v (after two_suppliers).
Proof.
  assert (supplied_on (after two_suppliers) hub "y") as Hsup.
  { exists plugB. split.
    - unfold attached. rewrite two_suppliers_order. right. left.
    - exists "yb". vm_compute. reflexivity. }
  assert (readable (after two_suppliers) "y" (order (after two_suppliers) hub)) as Hrd.
  { intros p a Hp. rewrite two_suppliers_order in Hp.
    elem_of_cases Hp; intros Ha; vm_compute in Ha; injection Ha as <-;
      eexists; vm_compute; reflexivity. }
  split; [exact Hsup|]. split; [exact Hrd|].
  exact (proj2 (proj2 (C3_read_unsupplied (after two_suppliers) hub "y")) Hsup Hrd).
Defined.

(** *** C4: a write reaches every supplier *)

Lemma two_suppliers_supplied : supplied_on (after two_suppliers) hub "y".
Proof.
  exists plugB. split.
  - unfold attached. rewrite two_suppliers_order. right. left.
  - exists "yb". vm_compute. reflexivity.
Qed.

Lemma two_suppliers_plain :
  routes_plain (after two_suppliers) "y" (order (after two_suppliers) hub).
Proof.
  intros p a Hp Ha. rewrite two_suppliers_order in Hp.
  elem_of_cases Hp; vm_compute in Ha; injection Ha as <-;
    repeat split; discriminate.
Qed.

(** C4, as stated, fails: [A] and [B] both supply [kind], but [A] routes
    it to [__class__], which Python refuses to set to the number 5.  The
    write raises at [A], the first supplier of the order, and never
    reaches [B], whose [kb] keeps its old value. *)
Lemma C4_counterexample :
  order (after class_target) hub = [plugA; plugB] ∧
  _supplies (plugs (after class_target) plugA) !! "kind" = Some "__class__" ∧
  _supplies (plugs (after class_target) plugB) !! "kind" = Some "kb" ∧
  Socket.__setattr__ hub "kind" (VInt 5) (after class_target)
  = Raise (TypeError "__class__") (after class_target) ∧
  attrs (plugs (after class_target) plugB) !! "kb" = Some (VInt 0).
Proof. split_and!; vm_compute; reflexivity. Qed.

(** C4, amended. For every socket and every name supplied by at least one
    attached plug, where every attached supplier routes the name to an
    ordinary attribute (not [_supplies], [__dict__], [__class__] or
    [__weakref__]), a write of a value to that name returns and stores
    the value in the routed attribute of every attached plug that
    supplies the name, whatever its priority: each of them reads back the
    value.  The write touches nothing else: no socket, no [_supplies]
    dict, no other attribute. *)
Theorem C4_write_reaches_all (w : world) (s : socket_id) (name : string) (v : value) :
  supplied_on w s name →
  routes_plain w name (order w s) →
  ∃ w', Socket.__setattr__ s name v w = Return tt w' ∧
        (∀ p a, attached w s p → _supplies (plugs w p) !! name = Some a →
                attrs (plugs w' p) !! a = Some v ∧ getattr p a w' = Return v w') ∧
        sockets w' = sockets w ∧
        (∀ p, _supplies (plugs w' p) = _supplies (plugs w p)) ∧
        (∀ p b, ¬ (attached w s p ∧ _supplies (plugs w p) !! name = Some b) →
                attrs (plugs w' p) !! b = attrs (plugs w p) !! b).
Proof.
  intros Hsup Hplain.
  destruct (setattr_supplied w s name v Hsup Hplain) as (w' & Hrun & [Hs Hsp Hval Hfr]).
  exists w'. split_and!; try done.
  intros p a Hp Ha. pose proof (Hval p a Hp Ha) as Hv. split; [done|].
  unfold getattr. rewrite decide_False, Hv; [done|].
  by destruct (Hplain p a Hp Ha).
Qed.

Lemma C4_write_reaches_all_witness :
  supplied_on (after two_suppliers) hub "y" ∧
  routes_plain (after two_suppliers) "y" (order (after two_suppliers) hub) ∧
  ∃ w', Socket.__setattr__ hub "y" (VInt 5) (after two_suppliers) = Return tt w' ∧
        attrs (plugs w' plugA) !! "ya" = Some (VInt 5) ∧
        attrs (plugs w' plugB) !! "yb" = Some (VInt 5).
Proof.
  split; [exact two_suppliers_supplied|]. split; [exact two_suppliers_plain|].
  destruct (C4_write_reaches_all (after two_suppliers) hub "y" (VInt 5)
              two_suppliers_supplied two_suppliers_plain)
    as (w' & Hrun & Hval & _).
  exists w'. split; [exact Hrun|]. split.
  - apply (Hval plugA "ya").
    + unfold attached. rewrite two_suppliers_order. left.
    + vm_compute. reflexivity.
  - apply (Hval plugB "yb").
    + unfold attached. rewrite two_suppliers_order. right. left.
    + vm_compute. reflexivity.
Defined.

(** *** C5: the compiled order after [connect] and [disconnect] *)

Lemma StronglySorted_lt_NoDup (l : list Z) : StronglySorted Z.lt l → NoDup l.
Proof.
  induction 1 as [|x l _ IH Hx]; constructor; [|done].
  intros Hin. pose proof (proj1 (Forall_forall _ _) Hx x Hin). lia.
Qed.

(** The registry has one resolution order. *)
Lemma resolution_order_unique d order1 order2 :
  resolution_order_spec d order1 → resolution_order_spec d order2 → order1 = order2.
Proof.
  intros (ks1 & Hs1 & Hd1 & ->) (ks2 & Hs2 & Hd2 & ->).
  f_equal. f_equal.
  apply (StronglySorted_unique_strong Z.lt); [intros; lia | done | done |].
  apply NoDup_Permutation; [by apply StronglySorted_lt_NoDup..|].
  intros k. by rewrite Hd1, Hd2.
Qed.

Lemma compiled_ok_after_compile w s d :
  sockets w s = MkSocket d (compile_order d) → compiled_ok w s.
Proof. intros Hs. unfold compiled_ok. rewrite Hs. apply compile_order_spec. Qed.

(** C5. After every completed [connect] and every completed [disconnect]
    the compiled list of the socket is the resolution order of its
    registry: the buckets concatenated along the ascending priorities,
    each bucket in insertion order.  [disconnect] recompiles last; in
    [connect] the hook runs after the recompilation, so the statement
    holds for every hook that hands the socket back compiled, the hook of
    the base class among them.  The order is a function of the registry. *)
Theorem C5_compiled_order (H : hooks) (s : socket_id) (p : plug_id)
    (priority : Z) (w : world) :
  (∀ w', (∀ w1 w2, compiled_ok w1 s → on_connected H p w1 = Return tt w2 →
                   compiled_ok w2 s) →
         Socket.connect H s p priority w = Return tt w' → compiled_ok w' s) ∧
  (∀ w', Socket.disconnect H s p w = Return tt w' → compiled_ok w' s) ∧
  (∃ w', Socket.connect base_hooks s p priority w = Return tt w' ∧
         compiled_ok w' s ∧
         order w' s = compile_order (_connections (sockets w' s))) ∧
  (∃ w', Socket.disconnect base_hooks s p w = Return tt w' ∧
         compiled_ok w' s ∧
         order w' s = compile_order (_connections (sockets w' s))) ∧
  (∀ w' order', compiled_ok w' s →
                resolution_order_spec (_connections (sockets w' s)) order' →
                order' = order w' s).
Proof.
  split_and!.
  - intros w' Hhook Hrun.
    destruct (connect_hook_state s p priority w) as (w1 & Hc & _ & Hs & _).
    rewrite Hc in Hrun. eapply Hhook; [|exact Hrun].
    by eapply compiled_ok_after_compile.
  - intros w' Hrun. rewrite disconnect_hook_first in Hrun.
    destruct (on_disconnected H p w) as [[] w1| |] eqn:Hhook; [|done..].
    destruct (disconnect_after_hook H s p w w1 Hhook) as (w2 & Hd & _ & Hs & _).
    rewrite disconnect_hook_first, Hhook in Hd. rewrite Hd in Hrun.
    injection Hrun as <-. by eapply compiled_ok_after_compile.
  - destruct (connect_hook_state s p priority w) as (w1 & Hc & _ & Hs & _).
    exists w1. split; [by rewrite Hc|]. split.
    + by eapply compiled_ok_after_compile.
    + unfold order. by rewrite Hs.
  - destruct (disconnect_after_hook base_hooks s p w w eq_refl)
      as (w2 & Hd & _ & Hs & _).
    exists w2. split; [done|]. split.
    + by eapply compiled_ok_after_compile.
    + unfold order. by rewrite Hs.
  - intros w' order' Hok Hspec. by eapply resolution_order_unique.
Qed.

Lemma C5_compiled_order_witness :
  ∃ w', Socket.connect base_hooks hub plugB 2 (after two_suppliers) = Return tt w' ∧
        compiled_ok w' hub.
Proof.
  eexists. split; [vm_compute; reflexivity|].
  apply (proj1 (C5_compiled_order base_hooks hub plugB 2 (after two_suppliers))).
  - intros w1 w2 Hok [= <-]. exact Hok.
  - vm_compute. reflexivity.
Defined.

(** *** C6: one [disconnect] removes every occurrence *)

Example connected_thrice_order :
  order (after connected_thrice) hub = [plugA; plugB; plugA; plugA].
Proof. vm_compute. reflexivity. Qed.

Example connected_thrice_disconnected :
  order (after (connected_thrice ;; Socket.disconnect base_hooks hub plugA)) hub
  = [plugB].
Proof. vm_compute. reflexivity. Qed.

(** C6. A [disconnect] whose hook returns removes every occurrence of the
    plug from every bucket of the registry, however often and at whatever
    priorities it was connected; the other plugs keep their places.  The
    plug is then no longer consulted, and a read of a name that only this
    plug supplied raises the unsupplied-name error. *)
Theorem C6_disconnect_removes_all (H : hooks) (s : socket_id) (p : plug_id)
    (w w1 : world) :
  on_disconnected H p w = Return tt w1 →
  ∃ w', Socket.disconnect H s p w = Return tt w' ∧
        (∀ k l, _connections (sockets w' s) !! k = Some l → p ∉ l) ∧
        (∀ k l, _connections (sockets w1 s) !! k = Some l →
                _connections (sockets w' s) !! k = Some (filter (λ q, q ≠ p) l)) ∧
        ¬ attached w' s p ∧
        (∀ name, (∀ q, q ≠ p → attached w' s q → ¬ supplies w' name q) →
                 Socket.__getattr__ s name w' = Raise (not_supplied name) w').
Proof.
  intros Hhook.
  destruct (disconnect_after_hook H s p w w1 Hhook) as (w' & Hd & _ & Hs & _).
  exists w'. split; [done|].
  assert (¬ attached w' s p) as Hgone.
  { unfold attached, order. rewrite Hs. simpl.
    intros (k & l & Hl & Hp)%elem_of_compile_order.
    by apply removed_lookup in Hl. }
  split_and!.
  - intros k l. rewrite Hs. simpl. apply removed_lookup.
  - intros k l Hl. rewrite Hs. simpl. by apply removed_lookup_other.
  - done.
  - intros name Honly. apply getattr_unsupplied.
    intros (q & Hq & Hsup). apply (Honly q); [|done..].
    intros ->. done.
Qed.

Lemma C6_disconnect_removes_all_witness :
  on_disconnected base_hooks plugA (after connected_thrice)
  = Return tt (after connected_thrice) ∧
  ∃ w', Socket.disconnect base_hooks hub plugA (after connected_thrice) = Return tt w' ∧
        ¬ attached w' hub plugA ∧
        Socket.__getattr__ hub "x" w' = Raise (not_supplied "x") w'.
Proof.
  split; [reflexivity|].
  destruct (C6_disconnect_removes_all base_hooks hub plugA
              (after connected_thrice) (after connected_thrice) eq_refl)
    as (w' & Hd & _ & _ & Hgone & Hread).
  exists w'. split; [exact Hd|]. split; [exact Hgone|].
  apply Hread. intros q Hq Hatt.
  assert (w' = after (connected_thrice ;; Socket.disconnect base_hooks hub plugA)) as ->.
  { assert (Return tt w' = Return tt
              (after (connected_thrice ;; Socket.disconnect base_hooks hub plugA)))
      as Heq by (rewrite <-Hd; vm_compute; reflexivity).
    exact (proj2 (Return_inj _ _ _ _ Heq)). }
  unfold attached in Hatt. rewrite connected_thrice_disconnected in Hatt.
  elem_of_cases Hatt. intros [a Ha]. vm_compute in Ha. discriminate.
Defined.

(** *** C7: when the hooks run *)

(** C7. [connect] calls the [connected] hook last: whatever the hook is,
    it runs in one and the same store, in which the plug's [socket]
    attribute is the socket, the plug is the last entry of its priority
    bucket, the compiled list is the order of that registry and holds the
    plug, and every name the plug supplies is a supplied name of the
    socket.  [disconnect] calls the [disconnected] hook first, in the
    store [disconnect] was called in, where nothing is removed yet; the
    removal and the recompilation follow in the store the hook returns,
    and do not happen when the hook raises. *)
Theorem C7_hook_order (s : socket_id) (p : plug_id) (priority : Z) (w : world) :
  (∃ w1, (∀ H, Socket.connect H s p priority w = on_connected H p w1) ∧
         attrs (plugs w1 p) !! "socket" = Some (VSocket s) ∧
         (∃ l, _connections (sockets w1 s) !! priority = Some (l ++ [p])) ∧
         compiled_ok w1 s ∧
         attached w1 s p ∧
         (∀ name, supplies w1 name p → supplied_on w1 s name)) ∧
  (∀ H, Socket.disconnect H s p w =
          match on_disconnected H p w with
          | Return _ w1 =>
              (Socket.remove_connections s p ;; Socket._compile_connections s) w1
          | Raise e w1 => Raise e w1
          | Unmodelled => Unmodelled
          end).
Proof.
  split; [|intros H; apply disconnect_hook_first].
  destruct (connect_hook_state s p priority w) as (w1 & Hc & Hp & Hs & _).
  exists w1.
  assert (attached w1 s p) as Hatt.
  { unfold attached, order. rewrite Hs. simpl. apply elem_of_compile_order.
    eexists priority, _. split; [apply lookup_insert_eq|].
    apply elem_of_app. right. by left. }
  split_and!.
  - done.
  - rewrite Hp, fn_lookup_insert. simpl. apply lookup_insert_eq.
  - rewrite Hs. simpl. eexists. apply lookup_insert_eq.
  - by eapply compiled_ok_after_compile.
  - done.
  - intros name Hsup. by exists p.
Qed.

(** *** C9: [supply] *)

Lemma supply_key name alias :
  (if Plug.truthy alias then default name alias else name) = supplied_key name alias.
Proof.
  destruct alias as [a|]; simpl; [|done].
  case_decide as Ha; [by subst|].
  apply String.eqb_neq in Ha. by rewrite Ha.
Qed.

Lemma supply_state p name alias w :
  ∃ w', Plug.supply p name alias w = Return tt w' ∧
        plugs w' = <[p := MkPlug (<[supplied_key name alias := name]>
                                    (_supplies (plugs w p)))
                                 (attrs (plugs w p))]> (plugs w) ∧
        sockets w' = sockets w.
Proof.
  eexists. split; [reflexivity|]. unfold set_plug; simpl.
  by rewrite supply_key.
Qed.

(** C9. [supply] always returns.  It files the name under its key in the
    plug's own [_supplies]: the key now maps to the name just supplied,
    whatever it mapped to before, and every other key keeps its entry, so
    that calls with different keys accumulate and a call with a key
    already present overwrites its target.  Nothing else changes: not the
    plug's attributes, not another plug, not a socket. *)
Theorem C9_supply (p : plug_id) (name : string) (alias : option string) (w : world) :
  ∃ w', Plug.supply p name alias w = Return tt w' ∧
        _supplies (plugs w' p) !! supplied_key name alias = Some name ∧
        (∀ k, k ≠ supplied_key name alias →
              _supplies (plugs w' p) !! k = _supplies (plugs w p) !! k) ∧
        attrs (plugs w' p) = attrs (plugs w p) ∧
        (∀ q, q ≠ p → plugs w' q = plugs w q) ∧
        sockets w' = sockets w ∧
        (∀ name2 alias2,
           ∃ w'', (Plug.supply p name alias ;; Plug.supply p name2 alias2) w
                  = Return tt w'' ∧
                  _supplies (plugs w'' p) !! supplied_key name2 alias2 = Some name2 ∧
                  (supplied_key name alias ≠ supplied_key name2 alias2 →
                   _supplies (plugs w'' p) !! supplied_key name alias = Some name)).
Proof.
  destruct (supply_state p name alias w) as (w' & Hrun & Hp & Hs).
  exists w'. split; [done|].
  assert (_supplies (plugs w' p)
          = <[supplied_key name alias := name]> (_supplies (plugs w p))) as Hsup.
  { by rewrite Hp, fn_lookup_insert. }
  split_and!.
  - rewrite Hsup. apply lookup_insert_eq.
  - intros k Hk. rewrite Hsup. by apply lookup_insert_ne.
  - by rewrite Hp, fn_lookup_insert.
  - intros q Hq. rewrite Hp. by apply fn_lookup_insert_ne.
  - done.
  - intros name2 alias2.
    destruct (supply_state p name2 alias2 w') as (w'' & Hrun2 & Hp2 & _).
    exists w''. split; [by erewrite bind_Return by exact Hrun|].
    rewrite Hp2, fn_lookup_insert. simpl. split.
    + apply lookup_insert_eq.
    + intros Hne. rewrite lookup_insert_ne by done.
      rewrite Hsup. apply lookup_insert_eq.
Qed.

(** *** C8: aliases *)




(** *** C1: which supplier a read returns *)

(** [connect] keeps every [_supplies] dict and every attribute a plug
    has; it only sets the [socket] attribute of the connected plug. *)
Lemma connect_keeps_plugs s p w w1 :
  plugs w1 = <[p := MkPlug (_supplies (plugs w p))
                           (<["socket" := VSocket s]> (attrs (plugs w p)))]> (plugs w) →
  (∀ q, _supplies (plugs w1 q) = _supplies (plugs w q)) ∧
  (∀ q a, gettable w q a → gettable w1 q a).
Proof.
  intros Hp. split.
  - intros q. rewrite Hp. destruct (decide (p = q)) as [->|Hq].
    + by rewrite fn_lookup_insert.
    + by rewrite fn_lookup_insert_ne.
  - intros q a [v Hv]. unfold gettable, getattr in *.
    case_decide; [by eexists|].
    rewrite Hp. destruct (decide (p = q)) as [->|Hq].
    + rewrite fn_lookup_insert. simpl.
      destruct (decide (a = "socket")) as [->|Ha].
      * rewrite lookup_insert_eq. by eexists.
      * rewrite lookup_insert_ne by done.
        destruct (attrs (plugs w q) !! a); [by eexists | done].
    + rewrite fn_lookup_insert_ne by done.
      destruct (attrs (plugs w q) !! a); [by eexists | done].
Qed.

Lemma compile_order_low_high (A B : plug_id) :
  compile_order (appended (appended ∅ 0 A) 1 B) = [A; B].
Proof. vm_compute. reflexivity. Qed.

Lemma compile_order_high_low (A B : plug_id) :
  compile_order (appended (appended ∅ 1 B) 0 A) = [A; B].
Proof. vm_compute. reflexivity. Qed.

(** Two plugs connected to a fresh socket, [A] at priority 0 and [B] at
    priority 1, in either order: the read is [B]'s. *)
Lemma read_after_two_connects w s A B name a b (A_first : bool) :
  sockets w s = MkSocket ∅ [] →
  _supplies (plugs w A) !! name = Some a →
  _supplies (plugs w B) !! name = Some b →
  gettable w A a → gettable w B b →
  ∃ w' v,
    ((if A_first
      then Socket.connect base_hooks s A 0 ;; Socket.connect base_hooks s B 1
      else Socket.connect base_hooks s B 1 ;; Socket.connect base_hooks s A 0) ;;
     Socket.__getattr__ s name) w = Return v w' ∧
    getattr B b w' = Return v w'.
Proof.
  intros Hfresh HA HB HgA HgB.
  set (X := if A_first then A else B). set (Y := if A_first then B else A).
  set (kx := if A_first then 0 else 1). set (ky := if A_first then 1 else 0).
  destruct (connect_hook_state s X kx w) as (w1 & Hc1 & Hp1 & Hs1 & _).
  destruct (connect_hook_state s Y ky w1) as (w2 & Hc2 & Hp2 & Hs2 & _).
  destruct (connect_keeps_plugs s X w w1 Hp1) as [Hsup1 Hget1].
  destruct (connect_keeps_plugs s Y w1 w2 Hp2) as [Hsup2 Hget2].
  assert (order w2 s = [A; B]) as Hord.
  { unfold order. rewrite Hs2, Hs1, Hfresh. simpl. unfold X, Y, kx, ky.
    destruct A_first; [apply compile_order_low_high | apply compile_order_high_low]. }
  destruct (Hget2 B b (Hget1 B b HgB)) as [v Hv].
  exists w2, v. split; [|done].
  assert ((if A_first
           then Socket.connect base_hooks s A 0 ;; Socket.connect base_hooks s B 1
           else Socket.connect base_hooks s B 1 ;; Socket.connect base_hooks s A 0) w
          = Return tt w2) as Hrun.
  { specialize (Hc1 base_hooks). specialize (Hc2 base_hooks).
    unfold X, Y, kx, ky in *. destruct A_first.
    - by erewrite bind_Return by exact Hc1.
    - by erewrite bind_Return by exact Hc1. }
  erewrite bind_Return by exact Hrun. rewrite <-Hv.
  apply (getattr_last_supplier w2 s name [A] B []); [done| | |constructor].
  - intros q c Hq Hc. elem_of_cases Hq.
    apply Hget2, Hget1. rewrite Hsup2, Hsup1, HA in Hc. by injection Hc as <-.
  - by rewrite Hsup2, Hsup1.
Qed.

(** The read of a supplied name on a compiled socket, and where the plug
    that answers it sits in the registry. *)
Lemma read_winner w s name :
  compiled_ok w s →
  supplied_on w s name →
  readable w name (order w s) →
  ∃ k l i p a v,
    _connections (sockets w s) !! k = Some l ∧ l !! i = Some p ∧
    _supplies (plugs w p) !! name = Some a ∧
    getattr p a w = Return v w ∧
    Socket.__getattr__ s name w = Return v w ∧
    ∀ k' l' j q, _connections (sockets w s) !! k' = Some l' → l' !! j = Some q →
                 supplies w name q → k' < k ∨ (k' = k ∧ (j ≤ i)%nat).
Proof.
  intros Hok Hsup%supplied_on_Exists Hrd.
  destruct (last_supplier_position _ _ (supplies w name) Hok Hsup)
    as (k & l & i & p & l1 & l2 & Hl & Hi & [a Ha] & Hord & Hl2 & Hpos).
  destruct (Hrd p a) as [v Hv]; [|done|].
  { fold (order w s) in Hord. rewrite Hord. apply elem_of_app. right. left. }
  exists k, l, i, p, a, v. split_and!; try done.
  rewrite <-Hv. eapply getattr_last_supplier; try done.
  intros q b Hq. apply Hrd. fold (order w s) in Hord. rewrite Hord.
  apply elem_of_app. by left.
Qed.

(** C1, as stated, fails: [B] at priority 1 is the last supplier of [x]
    and its [b] is 7, but [A] at priority 0 offers an attribute it never
    assigned, and the read raises on [A] before it reaches [B]. *)
Lemma C1_counterexample :
  order (after first_unset) hub = [plugA; plugB] ∧
  _supplies (plugs (after first_unset) plugB) !! "x" = Some "b" ∧
  getattr plugB "b" (after first_unset) = Return (VInt 7) (after first_unset) ∧
  Socket.__getattr__ hub "x" (after first_unset)
  = Raise (AttributeError "a") (after first_unset).
Proof. split_and!; vm_compute; reflexivity. Qed.

(** C1, amended. On a socket whose compiled list is the order of its
    registry (C5), a read of a name supplied by at least one attached
    plug, all of whose suppliers have the attribute they route the name
    to, returns the value of that attribute on the last supplier of the
    order: no supplier is registered at a higher priority, nor later in
    the same bucket.  In particular, with [A] connected at priority 0 and
    [B] at priority 1 to a fresh socket, in either order, the read
    returns [B]'s value. *)
Theorem C1_read_last_supplier :
  (∀ w s name,
     compiled_ok w s → supplied_on w s name → readable w name (order w s) →
     ∃ k l i p a v,
       _connections (sockets w s) !! k = Some l ∧ l !! i = Some p ∧
       _supplies (plugs w p) !! name = Some a ∧
       getattr p a w = Return v w ∧
       Socket.__getattr__ s name w = Return v w ∧
       ∀ k' l' j q, _connections (sockets w s) !! k' = Some l' → l' !! j = Some q →
                    supplies w name q → k' < k ∨ (k' = k ∧ (j ≤ i)%nat)) ∧
  (∀ w s A B name a b (A_first : bool),
     sockets w s = MkSocket ∅ [] →
     _supplies (plugs w A) !! name = Some a →
     _supplies (plugs w B) !! name = Some b →
     gettable w A a → gettable w B b →
     ∃ w' v,
       ((if A_first
         then Socket.connect base_hooks s A 0 ;; Socket.connect base_hooks s B 1
         else Socket.connect base_hooks s B 1 ;; Socket.connect base_hooks s A 0) ;;
        Socket.__getattr__ s name) w = Return v w' ∧
       getattr B b w' = Return v w').
Proof.
  split.
  - apply read_winner.
  - apply read_after_two_connects.
Qed.

Lemma two_suppliers_compiled : compiled_ok (after two_suppliers) hub.
Proof.
  unfold compiled_ok.
  replace (_compiled_connections (sockets (after two_suppliers) hub))
    with (compile_order (_connections (sockets (after two_suppliers) hub)))
    by (vm_compute; reflexivity).
  apply compile_order_spec.
Qed.

Lemma two_suppliers_readable :
  readable (after two_suppliers) "y" (order (after two_suppliers) hub).
Proof.
  intros p a Hp. rewrite two_suppliers_order in Hp.
  elem_of_cases Hp; intros Ha; vm_compute in Ha; injection Ha as <-;
    eexists; vm_compute; reflexivity.
Qed.

Lemma C1_read_last_supplier_witness :
  (compiled_ok (after two_suppliers) hub ∧
   supplied_on (after two_suppliers) hub "y" ∧
   readable (after two_suppliers) "y" (order (after two_suppliers) hub) ∧
   ∃ v, Socket.__getattr__ hub "y" (after two_suppliers)
        = Return v (after two_suppliers)) ∧
  (sockets (after both_supply) hub = MkSocket ∅ [] ∧
   _supplies (plugs (after both_supply) plugA) !! "x" = Some "a" ∧
   _supplies (plugs (after both_supply) plugB) !! "x" = Some "b" ∧
   gettable (after both_supply) plugA "a" ∧
   gettable (after both_supply) plugB "b" ∧
   ∃ w' v,
     ((Socket.connect base_hooks hub plugB 1 ;; Socket.connect base_hooks hub plugA 0) ;;
      Socket.__getattr__ hub "x") (after both_supply) = Return v w' ∧
     getattr plugB "b" w' = Return v w').
Proof.
  split.
  - split; [exact two_suppliers_compiled|].
    split; [exact two_suppliers_supplied|].
    split; [exact two_suppliers_readable|].
    destruct (proj1 C1_read_last_supplier (after two_suppliers) hub "y"
                two_suppliers_compiled two_suppliers_supplied two_suppliers_readable)
      as (k & l & i & p & a & v & _ & _ & _ & _ & Hread & _).
    exists v. exact Hread.
  - assert (sockets (after both_supply) hub = MkSocket ∅ []) as H1
      by (vm_compute; reflexivity).
    assert (_supplies (plugs (after both_supply) plugA) !! "x" = Some "a") as H2
      by (vm_compute; reflexivity).
    assert (_supplies (plugs (after both_supply) plugB) !! "x" = Some "b") as H3
      by (vm_compute; reflexivity).
    assert (gettable (after both_supply) plugA "a") as H4
      by (exists (VInt 1); vm_compute; reflexivity).
    assert (gettable (after both_supply) plugB "b") as H5
      by (exists (VInt 2); vm_compute; reflexivity).
    split; [exact H1|]. split; [exact H2|]. split; [exact H3|].
    split; [exact H4|]. split; [exact H5|].
    exact (proj2 C1_read_last_supplier (after both_supply) hub plugA plugB
             "x" "a" "b" false H1 H2 H3 H4 H5).
Defined.

(** * Further properties of the code *)

(** ** The order under a change of the registry *)

Lemma filter_concat {A} (P : A → Prop) `{∀ x, Decision (P x)} (ls : list (list A)) :
  filter P (concat ls) = concat (filter P <$> ls).
Proof.
  induction ls as [|l ls IH]; simpl; [done|].
  by rewrite filter_app, IH.
Qed.

Lemma elem_of_bucket d k q :
  q ∈ bucket d k → ∃ l, d !! k = Some l ∧ q ∈ l.
Proof.
  unfold bucket. destruct (d !! k) as [l|]; simpl; [by exists l|].
  intros Hq. exfalso. exact (proj1 (elem_of_nil _) Hq).
Qed.

(** A strictly ascending list of keys splits around any key [k]: the
    keys below, [k] itself if it is there, the keys above. *)
Lemma sorted_split (k : Z) (keys : list Z) :
  StronglySorted Z.lt keys →
  ∃ lo hi,
    keys = lo ++ (if decide (k ∈ keys) then [k] else []) ++ hi ∧
    Forall (λ x, x < k) lo ∧ Forall (λ x, k < x) hi.
Proof.
  induction 1 as [|x keys Hs IH Hx].
  - exists [], []. rewrite decide_False by apply not_elem_of_nil. done.
  - destruct (Z.lt_trichotomy x k) as [Hlt|[->|Hgt]].
    + destruct IH as (lo & hi & Hk & Hlo & Hhi).
      exists (x :: lo), hi. split_and!; [|by constructor|done].
      simpl. rewrite Hk at 1. f_equal.
      destruct (decide (k ∈ keys)) as [Hin|Hnin].
      * rewrite decide_True; [done | by right].
      * rewrite decide_False; [done|].
        intros [->|?]%elem_of_cons; [lia | done].
    + exists [], keys. rewrite decide_True by left.
      split_and!; [done | constructor | done].
    + exists [], (x :: keys). rewrite decide_False.
      * split_and!; [done | constructor |].
        constructor; [done|]. eapply Forall_impl; [exact Hx|].
        intros y Hy. simpl in Hy. lia.
      * intros [->|Hin]%elem_of_cons; [lia|].
        pose proof (proj1 (Forall_forall _ _) Hx k Hin). lia.
Qed.

(** Appending a plug to the bucket of priority [k] puts it at one place of
    the order, after every plug of priority up to [k] and before every
    plug of a higher priority, and moves nothing else. *)
Lemma resolution_order_appended d order k p :
  resolution_order_spec d order →
  ∃ l1 l2,
    order = l1 ++ l2 ∧
    resolution_order_spec (appended d k p) (l1 ++ p :: l2) ∧
    (∀ q, q ∈ l1 → ∃ k' l, d !! k' = Some l ∧ q ∈ l ∧ k' ≤ k) ∧
    (∀ q, q ∈ l2 → ∃ k' l, d !! k' = Some l ∧ q ∈ l ∧ k < k').
Proof.
  intros (keys & Hsort & Hdom & ->).
  destruct (sorted_split k keys Hsort) as (lo & hi & Hkeys & Hlo & Hhi).
  set (mid := if decide (k ∈ keys) then [k] else []) in Hkeys.
  assert (concat (bucket d <$> mid) = bucket d k) as Hmid.
  { unfold mid. case_decide as Hin; simpl; [by rewrite app_nil_r|].
    unfold bucket. destruct (d !! k) as [l|] eqn:Hl; [|done].
    destruct Hin. apply Hdom. by exists l. }
  assert (∀ x, x ∈ lo ++ k :: hi ↔ x = k ∨ x ∈ keys) as Hmem.
  { intros x. rewrite Hkeys, !elem_of_app, elem_of_cons. unfold mid.
    case_decide as Hin.
    - rewrite elem_of_cons, elem_of_nil. tauto.
    - rewrite elem_of_nil. tauto. }
  assert (∀ x, x ≠ k → bucket (appended d k p) x = bucket d x) as Hother.
  { intros x Hx. unfold bucket, appended. by rewrite lookup_insert_ne. }
  assert (bucket (appended d k p) k = bucket d k ++ [p]) as Hnew.
  { unfold bucket, appended. by rewrite lookup_insert_eq. }
  assert (∀ ks, Forall (λ x, x ≠ k) ks →
                bucket (appended d k p) <$> ks = bucket d <$> ks) as Hmap.
  { intros ks Hks. apply list_fmap_ext. intros i x Hi. apply Hother.
    apply (proj1 (Forall_forall _ _) Hks). by eapply list_elem_of_lookup_2. }
  exists (concat (bucket d <$> lo) ++ bucket d k), (concat (bucket d <$> hi)).
  split_and!.
  - rewrite Hkeys, !fmap_app, !concat_app, Hmid. by rewrite app_assoc.
  - exists (lo ++ k :: hi). split_and!.
    + rewrite Hkeys in Hsort. apply StronglySorted_app_2.
      * intros x1 x2 H1 [->|H2]%elem_of_cons.
        -- exact (proj1 (Forall_forall _ _) Hlo x1 H1).
        -- pose proof (proj1 (Forall_forall _ _) Hlo x1 H1).
           pose proof (proj1 (Forall_forall _ _) Hhi x2 H2).
           cbv beta in *. lia.
      * by eapply StronglySorted_app_1_l.
      * constructor; [|done].
        eapply StronglySorted_app_1_r, StronglySorted_app_1_r. exact Hsort.
    + intros x. rewrite Hmem. unfold appended.
      rewrite lookup_insert_is_Some, Hdom.
      destruct (decide (k = x)) as [->|Hne]; [tauto|].
      split; [intros [->|?]; [done | by right] | intros [->|[_ ?]]; [done | by right]].
    + rewrite fmap_app, fmap_cons, concat_app. simpl.
      rewrite (Hmap lo), (Hmap hi).
      * rewrite Hnew. by rewrite <-!app_assoc.
      * eapply Forall_impl; [exact Hhi|]. intros x Hx. simpl in Hx. lia.
      * eapply Forall_impl; [exact Hlo|]. intros x Hx. simpl in Hx. lia.
  - intros q [Hq|Hq]%elem_of_app.
    + apply elem_of_concat in Hq as (l & Hq & Hl).
      apply list_elem_of_fmap in Hl as (x & -> & Hx).
      apply elem_of_bucket in Hq as (l & Hl & Hq).
      pose proof (proj1 (Forall_forall _ _) Hlo x Hx) as Hlt. simpl in Hlt.
      exists x, l. split_and!; [done..|lia].
    + apply elem_of_bucket in Hq as (l & Hl & Hq).
      exists k, l. split_and!; [done..|lia].
  - intros q Hq.
    apply elem_of_concat in Hq as (l & Hq & Hl).
    apply list_elem_of_fmap in Hl as (x & -> & Hx).
    apply elem_of_bucket in Hq as (l & Hl & Hq).
    pose proof (proj1 (Forall_forall _ _) Hhi x Hx) as Hlt. simpl in Hlt.
    by exists x, l.
Qed.

(** Removing a plug from every bucket filters it out of the order. *)
Lemma resolution_order_removed d order p :
  resolution_order_spec d order →
  resolution_order_spec (removed d p) (filter (λ q, q ≠ p) order).
Proof.
  intros (keys & Hsort & Hdom & ->). exists keys. split_and!; [done| |].
  - intros k. rewrite Hdom. unfold removed. rewrite lookup_fmap.
    by rewrite fmap_is_Some.
  - rewrite filter_concat, <-list_fmap_compose. f_equal.
    apply list_fmap_ext. intros i k _. simpl. unfold bucket.
    destruct (d !! k) as [l|] eqn:Hl.
    + by rewrite (removed_lookup_other d p k l Hl).
    + unfold removed. by rewrite lookup_fmap, Hl.
Qed.

(** The store in which the [connected] hook runs, with the place the plug
    took in the order. *)
Lemma connect_insertion s p k w :
  compiled_ok w s →
  ∃ w1 l1 l2,
    (∀ H, Socket.connect H s p k w = on_connected H p w1) ∧
    plugs w1 = <[p := MkPlug (_supplies (plugs w p))
                             (<["socket" := VSocket s]> (attrs (plugs w p)))]> (plugs w) ∧
    compiled_ok w1 s ∧
    order w s = l1 ++ l2 ∧
    order w1 s = l1 ++ p :: l2 ∧
    (∀ q, q ∈ l1 → ∃ k' l, _connections (sockets w s) !! k' = Some l ∧ q ∈ l ∧ k' ≤ k) ∧
    (∀ q, q ∈ l2 → ∃ k' l, _connections (sockets w s) !! k' = Some l ∧ q ∈ l ∧ k < k').
Proof.
  intros Hok.
  destruct (connect_hook_state s p k w) as (w1 & Hc & Hp & Hs & _).
  destruct (resolution_order_appended _ _ k p Hok) as (l1 & l2 & Hord & Hspec & H1 & H2).
  exists w1, l1, l2. split_and!; try done.
  - by eapply compiled_ok_after_compile.
  - unfold order. rewrite Hs. simpl.
    eapply resolution_order_unique; [apply compile_order_spec | exact Hspec].
Qed.

(** ** [connect] *)

(** X1. On a compiled socket, [connect] puts the plug at exactly one place
    of the order and moves no other entry: behind every plug registered at
    a priority up to its own, before every plug of a higher priority.  A
    plug connected again gets one more entry. *)
Theorem connect_inserts_once (s : socket_id) (p : plug_id) (k : Z) (w : world) :
  compiled_ok w s →
  ∃ w1 l1 l2,
    (∀ H, Socket.connect H s p k w = on_connected H p w1) ∧
    order w s = l1 ++ l2 ∧
    order w1 s = l1 ++ p :: l2 ∧
    (∀ q, q ∈ l1 → ∃ k' l, _connections (sockets w s) !! k' = Some l ∧ q ∈ l ∧ k' ≤ k) ∧
    (∀ q, q ∈ l2 → ∃ k' l, _connections (sockets w s) !! k' = Some l ∧ q ∈ l ∧ k < k').
Proof.
  intros Hok.
  destruct (connect_insertion s p k w Hok)
    as (w1 & l1 & l2 & Hc & _ & _ & Ho & Ho1 & H1 & H2).
  by exists w1, l1, l2.
Qed.

Lemma connect_inserts_once_witness :
  compiled_ok (after two_suppliers) hub ∧
  ∃ w1 l1 l2,
    Socket.connect base_hooks hub plugB 0 (after two_suppliers) = Return tt w1 ∧
    order (after two_suppliers) hub = l1 ++ l2 ∧
    order w1 hub = l1 ++ plugB :: l2.
Proof.
  split; [exact two_suppliers_compiled|].
  destruct (connect_inserts_once hub plugB 0 (after two_suppliers) two_suppliers_compiled)
    as (w1 & l1 & l2 & Hc & Ho & Ho1 & _).
  exists w1, l1, l2. split; [exact (Hc base_hooks)|]. split; [exact Ho | exact Ho1].
Defined.

(** X2. A plug connected at priority [k] answers the reads of every name
    it supplies, unless a plug of a higher priority supplies the name too:
    it overrides the suppliers of lower priorities and the ones connected
    earlier at its own.  (The earlier suppliers must have their
    attribute, since the read visits them first.) *)
Theorem connect_newcomer_wins (s : socket_id) (p : plug_id) (k : Z) (w : world)
    (name a : string) :
  compiled_ok w s →
  _supplies (plugs w p) !! name = Some a →
  readable w name (order w s) →
  (∀ k' l q, _connections (sockets w s) !! k' = Some l → q ∈ l → k < k' →
             ¬ supplies w name q) →
  ∃ w1, (∀ H, Socket.connect H s p k w = on_connected H p w1) ∧
        Socket.__getattr__ s name w1 = getattr p a w1.
Proof.
  intros Hok Ha Hrd Hhigher.
  destruct (connect_insertion s p k w Hok)
    as (w1 & l1 & l2 & Hc & Hp & _ & Ho & Ho1 & _ & H2).
  destruct (connect_keeps_plugs s p w w1 Hp) as [Hsup Hget].
  exists w1. split; [done|].
  apply (getattr_last_supplier w1 s name l1 p l2 a); [done| | |].
  - intros q b Hq Hb. apply Hget. rewrite Hsup in Hb.
    apply (Hrd q b); [|done]. rewrite Ho. apply elem_of_app. by left.
  - by rewrite Hsup.
  - apply Forall_forall. intros q Hq [b Hb]. rewrite Hsup in Hb.
    destruct (H2 q Hq) as (k' & l & Hl & Hql & Hlt).
    apply (Hhigher k' l q Hl Hql Hlt). by exists b.
Qed.

Lemma one_connected_compiled : compiled_ok (after one_connected) hub.
Proof.
  unfold compiled_ok.
  replace (_compiled_connections (sockets (after one_connected) hub))
    with (compile_order (_connections (sockets (after one_connected) hub)))
    by (vm_compute; reflexivity).
  apply compile_order_spec.
Qed.

Lemma connect_newcomer_wins_witness :
  compiled_ok (after one_connected) hub ∧
  _supplies (plugs (after one_connected) plugB) !! "x" = Some "b" ∧
  readable (after one_connected) "x" (order (after one_connected) hub) ∧
  (∀ k' l q, _connections (sockets (after one_connected) hub) !! k' = Some l →
             q ∈ l → 0 < k' → ¬ supplies (after one_connected) "x" q) ∧
  ∃ w1, Socket.connect base_hooks hub plugB 0 (after one_connected) = Return tt w1 ∧
        Socket.__getattr__ hub "x" w1 = getattr plugB "b" w1.
Proof.
  assert (_supplies (plugs (after one_connected) plugB) !! "x" = Some "b") as Ha
    by (vm_compute; reflexivity).
  assert (readable (after one_connected) "x" (order (after one_connected) hub)) as Hrd.
  { intros q c Hq.
    replace (order (after one_connected) hub) with [plugA] in Hq
      by (vm_compute; reflexivity).
    elem_of_cases Hq. intros Hc. vm_compute in Hc. injection Hc as <-.
    eexists. vm_compute. reflexivity. }
  assert (∀ k' l q, _connections (sockets (after one_connected) hub) !! k' = Some l →
                    q ∈ l → 0 < k' → ¬ supplies (after one_connected) "x" q) as Hhigher.
  { intros k' l q Hl _ Hlt.
    replace (_connections (sockets (after one_connected) hub))
      with ({[ 0 := [plugA] ]} : gmap Z (list plug_id)) in Hl
      by (vm_compute; reflexivity).
    apply lookup_singleton_Some in Hl as [<- _]. lia. }
  split; [exact one_connected_compiled|]. split; [exact Ha|].
  split; [exact Hrd|]. split; [exact Hhigher|].
  destruct (connect_newcomer_wins hub plugB 0 (after one_connected) "x" "b"
              one_connected_compiled Ha Hrd Hhigher) as (w1 & Hc & Hread).
  exists w1. split; [exact (Hc base_hooks) | exact Hread].
Defined.

(** ** [disconnect] *)

Lemma disconnect_order H s p w w1 :
  on_disconnected H p w = Return tt w1 →
  compiled_ok w1 s →
  ∃ w', Socket.disconnect H s p w = Return tt w' ∧
        order w' s = filter (λ q, q ≠ p) (order w1 s) ∧
        plugs w' = plugs w1 ∧
        _connections (sockets w' s) = removed (_connections (sockets w1 s)) p.
Proof.
  intros Hhook Hok.
  destruct (disconnect_after_hook H s p w w1 Hhook) as (w' & Hd & Hp & Hs & _).
  exists w'. split_and!; [done| |done|by rewrite Hs].
  unfold order at 1. rewrite Hs. simpl.
  eapply resolution_order_unique; [apply compile_order_spec|].
  by apply resolution_order_removed.
Qed.

(** X3. A [disconnect] whose hook returns takes the plug out of the
    order of a compiled socket and leaves the other plugs in the order
    they had; it changes no plug. *)
Theorem disconnect_filters_order (H : hooks) (s : socket_id) (p : plug_id)
    (w w1 : world) :
  on_disconnected H p w = Return tt w1 →
  compiled_ok w1 s →
  ∃ w', Socket.disconnect H s p w = Return tt w' ∧
        order w' s = filter (λ q, q ≠ p) (order w1 s) ∧
        plugs w' = plugs w1.
Proof.
  intros Hhook Hok.
  destruct (disconnect_order H s p w w1 Hhook Hok) as (w' & Hd & Ho & Hp & _).
  by exists w'.
Qed.

Lemma disconnect_filters_order_witness :
  on_disconnected base_hooks plugA (after two_suppliers)
  = Return tt (after two_suppliers) ∧
  compiled_ok (after two_suppliers) hub ∧
  ∃ w', Socket.disconnect base_hooks hub plugA (after two_suppliers) = Return tt w' ∧
        order w' hub = filter (λ q, q ≠ plugA) (order (after two_suppliers) hub).
Proof.
  split; [reflexivity|]. split; [exact two_suppliers_compiled|].
  destruct (disconnect_filters_order base_hooks hub plugA (after two_suppliers)
              (after two_suppliers) eq_refl two_suppliers_compiled)
    as (w' & Hd & Ho & _).
  exists w'. split; [exact Hd | exact Ho].
Defined.

(** X4. Disconnecting a plug that the socket does not hold calls the
    hook and then changes nothing: the registry, the compiled order and
    every plug are as the hook left them. *)
Theorem disconnect_unregistered (H : hooks) (s : socket_id) (p : plug_id)
    (w w1 : world) :
  on_disconnected H p w = Return tt w1 →
  compiled_ok w1 s →
  ¬ attached w1 s p →
  ∃ w', Socket.disconnect H s p w = Return tt w' ∧
        (∀ t, sockets w' t = sockets w1 t) ∧
        plugs w' = plugs w1.
Proof.
  intros Hhook Hok Hnot.
  destruct (disconnect_after_hook H s p w w1 Hhook) as (w' & Hd & Hp & Hs & Hother).
  exists w'. split_and!; [done| |done].
  assert (removed (_connections (sockets w1 s)) p = _connections (sockets w1 s)) as Hsame.
  { apply map_eq. intros k. unfold removed. rewrite lookup_fmap.
    destruct (_connections (sockets w1 s) !! k) as [l|] eqn:Hl; [|done].
    simpl. f_equal. rewrite decide_False; [done|].
    intros Hin. apply Hnot. apply attached_registry; [done|]. eauto. }
  intros t. destruct (decide (t = s)) as [->|Ht]; [|by apply Hother].
  rewrite Hs. simpl. rewrite Hsame.
  assert (compile_order (_connections (sockets w1 s))
          = _compiled_connections (sockets w1 s)) as ->.
  { eapply resolution_order_unique; [apply compile_order_spec | exact Hok]. }
  by destruct (sockets w1 s).
Qed.

Lemma disconnect_unregistered_witness :
  on_disconnected base_hooks plugC (after two_suppliers)
  = Return tt (after two_suppliers) ∧
  compiled_ok (after two_suppliers) hub ∧
  ¬ attached (after two_suppliers) hub plugC ∧
  ∃ w', Socket.disconnect base_hooks hub plugC (after two_suppliers) = Return tt w' ∧
        sockets w' hub = sockets (after two_suppliers) hub.
Proof.
  assert (¬ attached (after two_suppliers) hub plugC) as Hnot.
  { unfold attached. rewrite two_suppliers_order. intros Hin.
    repeat (apply elem_of_cons in Hin as [Heq|Hin]; [discriminate Heq|]).
    exact (proj1 (elem_of_nil _) Hin). }
  split; [reflexivity|]. split; [exact two_suppliers_compiled|].
  split; [exact Hnot|].
  destruct (disconnect_unregistered base_hooks hub plugC (after two_suppliers)
              (after two_suppliers) eq_refl two_suppliers_compiled Hnot)
    as (w' & Hd & Hs & _).
  exists w'. split; [exact Hd | exact (Hs hub)].
Defined.

(** X5. [disconnect] does not undo what [connect] did to the plug and to
    the keys of the registry: after a [connect] followed by a
    [disconnect] the plug is out of the order, but its [socket] attribute
    still refers to the socket, and the bucket of its priority is still a
    key of the registry. *)
Theorem disconnect_keeps_reference (s : socket_id) (p : plug_id) (k : Z) (w : world) :
  ∃ w', (Socket.connect base_hooks s p k ;; Socket.disconnect base_hooks s p) w
        = Return tt w' ∧
        getattr p "socket" w' = Return (VSocket s) w' ∧
        ¬ attached w' s p ∧
        is_Some (_connections (sockets w' s) !! k).
Proof.
  destruct (connect_hook_state s p k w) as (w1 & Hc & Hp1 & Hs1 & _).
  destruct (disconnect_after_hook base_hooks s p w1 w1 eq_refl)
    as (w' & Hd & Hp & Hs & _).
  exists w'. split_and!.
  - erewrite bind_Return by exact (Hc base_hooks). exact Hd.
  - unfold getattr. rewrite decide_False by discriminate.
    rewrite Hp, Hp1, fn_lookup_insert. simpl. by rewrite lookup_insert_eq.
  - unfold attached, order. rewrite Hs. simpl.
    intros (k' & l & Hl & Hin)%elem_of_compile_order.
    by apply removed_lookup in Hl.
  - rewrite Hs, Hs1. simpl. eexists. apply removed_lookup_other.
    apply lookup_insert_eq.
Qed.

(** X6. On a compiled socket that does not hold the plug, [connect]
    followed by [disconnect] gives back the order and every bucket; the
    other plugs and the plug's own [_supplies] are untouched. *)
Theorem connect_disconnect_round_trip (s : socket_id) (p : plug_id) (k : Z) (w : world) :
  compiled_ok w s →
  ¬ attached w s p →
  ∃ w', (Socket.connect base_hooks s p k ;; Socket.disconnect base_hooks s p) w
        = Return tt w' ∧
        order w' s = order w s ∧
        (∀ k', bucket (_connections (sockets w' s)) k'
               = bucket (_connections (sockets w s)) k') ∧
        (∀ q, q ≠ p → plugs w' q = plugs w q) ∧
        _supplies (plugs w' p) = _supplies (plugs w p).
Proof.
  intros Hok Hnot.
  destruct (connect_insertion s p k w Hok)
    as (w1 & l1 & l2 & Hc & Hp1 & Hok1 & Ho & Ho1 & _).
  destruct (connect_hook_state s p k w) as (w1' & Hc' & _ & Hs1 & _).
  assert (w1' = w1) as ->.
  { pose proof (Hc base_hooks) as E. rewrite (Hc' base_hooks) in E.
    exact (proj2 (Return_inj _ _ _ _ E)). }
  destruct (disconnect_order base_hooks s p w1 w1 eq_refl Hok1)
    as (w' & Hd & Ho' & Hp & Hreg).
  assert (∀ k' l, _connections (sockets w s) !! k' = Some l → p ∉ l) as Hfree.
  { intros k' l Hl Hin. apply Hnot. apply attached_registry; [done|]. eauto. }
  exists w'. split_and!.
  - erewrite bind_Return by exact (Hc base_hooks). exact Hd.
  - assert (p ∉ l1 ∧ p ∉ l2) as [H1 H2].
    { unfold attached in Hnot. rewrite Ho, elem_of_app in Hnot. tauto. }
    rewrite Ho', Ho1, Ho, filter_app, filter_cons_False by (intros ?; done).
    by rewrite !filter_absent.
  - intros k'. rewrite Hreg, Hs1. simpl. unfold bucket, appended.
    destruct (decide (k' = k)) as [->|Hne].
    + erewrite removed_lookup_other by apply lookup_insert_eq. simpl.
      rewrite filter_app, filter_cons_False by (intros ?; done).
      rewrite filter_nil, app_nil_r.
      destruct (_connections (sockets w s) !! k) as [l|] eqn:Hl; simpl; [|done].
      apply filter_absent. by eapply Hfree.
    + destruct (_connections (sockets w s) !! k') as [l|] eqn:Hl.
      * erewrite removed_lookup_other by (rewrite lookup_insert_ne by done; exact Hl).
        simpl. apply filter_absent. by eapply Hfree.
      * unfold removed. by rewrite lookup_fmap, lookup_insert_ne, Hl by done.
  - intros q Hq. rewrite Hp, Hp1. by apply fn_lookup_insert_ne.
  - by rewrite Hp, Hp1, fn_lookup_insert.
Qed.

Lemma connect_disconnect_round_trip_witness :
  compiled_ok (after one_connected) hub ∧
  ¬ attached (after one_connected) hub plugB ∧
  ∃ w', (Socket.connect base_hooks hub plugB 5 ;; Socket.disconnect base_hooks hub plugB)
          (after one_connected) = Return tt w' ∧
        order w' hub = order (after one_connected) hub.
Proof.
  assert (¬ attached (after one_connected) hub plugB) as Hnot.
  { unfold attached.
    replace (order (after one_connected) hub) with [plugA] by (vm_compute; reflexivity).
    intros Hin.
    repeat (apply elem_of_cons in Hin as [Heq|Hin]; [discriminate Heq|]).
    exact (proj1 (elem_of_nil _) Hin). }
  split; [exact one_connected_compiled|]. split; [exact Hnot|].
  destruct (connect_disconnect_round_trip hub plugB 5 (after one_connected)
              one_connected_compiled Hnot) as (w' & Hrun & Ho & _).
  exists w'. split; [exact Hrun | exact Ho].
Defined.

(** X9. [connect] touches one socket and one attribute: the other
    sockets keep their registry and order, so a plug connected elsewhere
    stays attached there although its [socket] attribute now names the
    new socket; the other plugs, and the plug's [_supplies] and other
    attributes, are unchanged. *)
Theorem connect_frame (s s' : socket_id) (p : plug_id) (k : Z) (w : world) :
  s' ≠ s →
  ∃ w1, (∀ H, Socket.connect H s p k w = on_connected H p w1) ∧
        sockets w1 s' = sockets w s' ∧
        (attached w s' p → attached w1 s' p) ∧
        getattr p "socket" w1 = Return (VSocket s) w1 ∧
        _supplies (plugs w1 p) = _supplies (plugs w p) ∧
        (∀ a, a ≠ "socket" → attrs (plugs w1 p) !! a = attrs (plugs w p) !! a) ∧
        (∀ q, q ≠ p → plugs w1 q = plugs w q).
Proof.
  intros Hne.
  destruct (connect_hook_state s p k w) as (w1 & Hc & Hp & _ & Hother).
  exists w1. split_and!.
  - done.
  - by apply Hother.
  - unfold attached, order. by rewrite Hother.
  - unfold getattr. rewrite decide_False by discriminate.
    rewrite Hp, fn_lookup_insert. simpl. by rewrite lookup_insert_eq.
  - by rewrite Hp, fn_lookup_insert.
  - intros a Ha. rewrite Hp, fn_lookup_insert. simpl. by apply lookup_insert_ne.
  - intros q Hq. rewrite Hp. by apply fn_lookup_insert_ne.
Qed.

Lemma connect_frame_witness :
  (1%nat : socket_id) ≠ hub ∧
  ∃ w1, Socket.connect base_hooks hub plugA 0 (after both_supply) = Return tt w1 ∧
        sockets w1 1%nat = sockets (after both_supply) 1%nat ∧
        getattr plugA "socket" w1 = Return (VSocket hub) w1.
Proof.
  assert ((1%nat : socket_id) ≠ hub) as Hne by discriminate.
  split; [exact Hne|].
  destruct (connect_frame hub 1%nat plugA 0 (after both_supply) Hne)
    as (w1 & Hc & Hs & _ & Hg & _).
  exists w1. split; [exact (Hc base_hooks)|]. split; [exact Hs | exact Hg].
Defined.

(** ** Reads after a write and after a late [supply] *)

(** X7. A write that finds a supplier, all suppliers routing the name to
    ordinary attributes (not [_supplies], [__dict__], [__class__] or
    [__weakref__]), can be read back: the read of the same name returns
    the value written. *)
Theorem write_then_read (w : world) (s : socket_id) (name : string) (v : value) :
  supplied_on w s name →
  routes_plain w name (order w s) →
  ∃ w', Socket.__setattr__ s name v w = Return tt w' ∧
        Socket.__getattr__ s name w' = Return v w'.
Proof.
  intros Hsup Hkeep.
  destruct (setattr_supplied w s name v Hsup Hkeep) as (w' & Hrun & [Hs Hsp Hval _]).
  exists w'. split; [done|].
  assert (order w' s = order w s) as Hord by (unfold order; by rewrite Hs).
  assert (∀ q b, q ∈ order w s → _supplies (plugs w' q) !! name = Some b →
                 getattr q b w' = Return v w') as Hback.
  { intros q b Hq Hb. rewrite Hsp in Hb.
    unfold getattr. rewrite decide_False, (Hval q b Hq Hb); [done|].
    by destruct (Hkeep q b Hq Hb). }
  apply supplied_on_Exists in Hsup.
  apply last_match_split in Hsup as (l1 & p & l2 & Hsplit & [a Ha] & Hl2); [|apply _].
  rewrite <-(Hback p a).
  - apply (getattr_last_supplier w' s name l1 p l2 a).
    + by rewrite Hord.
    + intros q b Hq Hb. exists v. apply Hback; [|done].
      rewrite Hsplit. apply elem_of_app. by left.
    + by rewrite Hsp.
    + eapply Forall_impl; [exact Hl2|]. intros q Hq [b Hb]. apply Hq.
      exists b. by rewrite <-Hsp.
  - rewrite Hsplit. apply elem_of_app. right. left.
  - by rewrite Hsp.
Qed.

Lemma write_then_read_witness :
  supplied_on (after two_suppliers) hub "y" ∧
  routes_plain (after two_suppliers) "y" (order (after two_suppliers) hub) ∧
  ∃ w', Socket.__setattr__ hub "y" (VStr "new") (after two_suppliers) = Return tt w' ∧
        Socket.__getattr__ hub "y" w' = Return (VStr "new") w'.
Proof.
  split; [exact two_suppliers_supplied|]. split; [exact two_suppliers_plain|].
  exact (write_then_read (after two_suppliers) hub "y" (VStr "new")
           two_suppliers_supplied two_suppliers_plain).
Defined.

(** A scan in which one plug is the only supplier is the [getattr] on
    that plug, however often the plug occurs. *)
Lemma for_supplies_read_single name p a conns supplied acc w :
  _supplies (plugs w p) !! name = Some a →
  (∀ q, q ∈ conns → q ≠ p → ¬ supplies w name q) →
  p ∈ conns →
  for_supplies name read_body conns supplied acc w = getattr p a w.
Proof.
  intros Ha. revert supplied acc.
  induction conns as [|q conns IH]; intros supplied acc Honly Hin.
  { exfalso. exact (proj1 (elem_of_nil _) Hin). }
  assert (∀ r, r ∈ conns → r ≠ p → ¬ supplies w name r) as Honly'.
  { intros r Hr. apply Honly. by right. }
  simpl. destruct (decide (q = p)) as [->|Hq].
  - rewrite Ha. unfold read_body at 1.
    destruct (getattr_cases p a w) as [[v Hv]|Hv].
    + erewrite bind_Return by exact Hv.
      destruct (decide (p ∈ conns)) as [Hp|Hp]; [by apply IH|].
      rewrite Hv, for_supplies_no_match; [done|].
      apply Forall_forall. intros r Hr.
      apply Honly'; [done|]. by intros ->.
    + by erewrite bind_Raise by exact Hv.
  - destruct (_supplies (plugs w q) !! name) as [b|] eqn:Hb.
    + destruct (Honly q); [by left | done | by exists b].
    + apply IH; [done|]. by apply elem_of_cons in Hin as [->|?].
Qed.

(** X8. The socket reads [_supplies] at the time of the access: a name
    that an attached plug supplies only after it was connected is
    supplied on the socket at once, without a new [connect]; and when no
    other attached plug offers the name, the read is the [getattr] of the
    supplied attribute on that plug. *)
Theorem late_supply_is_live (w : world) (s : socket_id) (p : plug_id)
    (name : string) (alias : option string) :
  attached w s p →
  ∃ w1, Plug.supply p name alias w = Return tt w1 ∧
        order w1 s = order w s ∧
        supplied_on w1 s (supplied_key name alias) ∧
        (∀ msg w2, Socket.__getattr__ s (supplied_key name alias) w1
                   ≠ Raise (ValueError msg) w2) ∧
        ((∀ q, attached w s q → q ≠ p → ¬ supplies w (supplied_key name alias) q) →
         Socket.__getattr__ s (supplied_key name alias) w1 = getattr p name w1).
Proof.
  intros Hatt.
  destruct (supply_state p name alias w) as (w1 & Hrun & Hp & Hs).
  assert (order w1 s = order w s) as Hord by (unfold order; by rewrite Hs).
  assert (_supplies (plugs w1 p) !! supplied_key name alias = Some name) as Hkey.
  { rewrite Hp, fn_lookup_insert. simpl. apply lookup_insert_eq. }
  assert (supplied_on w1 s (supplied_key name alias)) as Hsup.
  { exists p. split; [unfold attached; by rewrite Hord | by exists name]. }
  exists w1. split_and!; try done.
  - intros msg w2 Hraise.
    apply for_supplies_read_ValueError in Hraise.
    by apply not_supplied_on_Forall in Hraise.
  - intros Honly.
    unfold Socket.__getattr__, Socket._find_supplies. fold (order w1 s).
    apply for_supplies_read_single; [done| |by rewrite Hord].
    intros q Hq Hne [b Hb]. rewrite Hord in Hq.
    apply (Honly q Hq Hne). exists b.
    rewrite Hp, fn_lookup_insert_ne in Hb by done. exact Hb.
Qed.

Lemma late_supply_is_live_witness :
  attached (after aliased) hub plugA ∧
  ∃ w1, Plug.supply plugA "hp" (Some "health") (after aliased) = Return tt w1 ∧
        supplied_on w1 hub "health".
Proof.
  assert (attached (after aliased) hub plugA) as Hatt.
  { unfold attached.
    replace (order (after aliased) hub) with [plugA] by (vm_compute; reflexivity).
    left. }
  split; [exact Hatt|].
  destruct (late_supply_is_live (after aliased) hub plugA "hp" (Some "health") Hatt)
    as (w1 & Hrun & _ & Hsup & _).
  exists w1. split; [exact Hrun | exact Hsup].
Defined.

(** ** The constructors *)

(** X10. [Socket.__init__] gives a socket that holds no plug, whatever it
    held before: its compiled list is the order of its empty registry,
    and every read and every write on it raises the unsupplied-name
    error.  No plug and no other socket is touched. *)
Theorem fresh_socket (s : socket_id) (w : world) :
  ∃ w', Socket.__init__ s w = Return tt w' ∧
        compiled_ok w' s ∧ order w' s = [] ∧
        (∀ name, Socket.__getattr__ s name w' = Raise (not_supplied name) w') ∧
        (∀ name v, Socket.__setattr__ s name v w' = Raise (not_supplied name) w') ∧
        plugs w' = plugs w ∧
        (∀ t, t ≠ s → sockets w' t = sockets w t).
Proof.
  eexists. split; [reflexivity|].
  assert (sockets (set_socket s (MkSocket ∅ []) w) s = MkSocket ∅ []) as Hs.
  { by rewrite sockets_set_socket, decide_True. }
  assert (∀ name, ¬ supplied_on (set_socket s (MkSocket ∅ []) w) s name) as Hno.
  { intros name (p & Hp & _). unfold attached, order in Hp. rewrite Hs in Hp.
    exact (proj1 (elem_of_nil _) Hp). }
  split_and!.
  - unfold compiled_ok. rewrite Hs. exists []. split_and!; [constructor| |done].
    intros k. simpl. rewrite lookup_empty. split.
    + intros Hk. exfalso. exact (proj1 (elem_of_nil _) Hk).
    + by intros [? ?].
  - unfold order. by rewrite Hs.
  - intros name. by apply getattr_unsupplied.
  - intros name v. by apply setattr_unsupplied.
  - done.
  - intros t Ht. by rewrite sockets_set_socket, decide_False.
Qed.

(** X11. A plug fresh from [Plug.__init__] supplies nothing: connecting
    it to a compiled socket that does not hold it leaves the supplied
    names of the socket exactly as they were, while the plug is attached
    and its [socket] attribute names the socket. *)
Theorem connect_fresh_plug (s : socket_id) (p : plug_id) (k : Z) (w : world) :
  compiled_ok w s →
  ¬ attached w s p →
  ∃ w', (Plug.__init__ p ;; Socket.connect base_hooks s p k) w = Return tt w' ∧
        attached w' s p ∧
        getattr p "socket" w' = Return (VSocket s) w' ∧
        (∀ name, ¬ supplies w' name p) ∧
        (∀ name, supplied_on w' s name ↔ supplied_on w s name).
Proof.
  intros Hok Hnot.
  set (w0 := set_plug p (MkPlug ∅ (<["socket" := VNone]> (attrs (plugs w p)))) w).
  assert (Plug.__init__ p w = Return tt w0) as Hinit by reflexivity.
  assert (_supplies (plugs w0 p) = ∅) as Hp0.
  { unfold w0. by rewrite plugs_set_plug, decide_True. }
  assert (∀ q, q ≠ p → plugs w0 q = plugs w q) as Hq0.
  { intros q Hq. unfold w0. by rewrite plugs_set_plug, decide_False. }
  assert (compiled_ok w0 s) as Hok0 by exact Hok.
  destruct (connect_insertion s p k w0 Hok0)
    as (w1 & l1 & l2 & Hc & Hp1 & _ & Ho & Ho1 & _).
  destruct (connect_keeps_plugs s p w0 w1 Hp1) as [Hsup _].
  assert (∀ name, ¬ supplies w1 name p) as Hnone.
  { intros name [a Ha]. rewrite Hsup, Hp0 in Ha.
    by rewrite lookup_empty in Ha. }
  exists w1. split_and!.
  - erewrite bind_Return by exact Hinit. exact (Hc base_hooks).
  - unfold attached. rewrite Ho1. apply elem_of_app. right. left.
  - unfold getattr. rewrite decide_False by discriminate.
    rewrite Hp1, fn_lookup_insert. simpl. by rewrite lookup_insert_eq.
  - done.
  - intros name. change (order w0 s) with (order w s) in Ho. split.
    + intros (q & Hq & Hs). destruct (decide (q = p)) as [->|Hne].
      { by destruct (Hnone name). }
      exists q. unfold attached in *. split.
      * rewrite Ho1 in Hq. rewrite Ho.
        apply elem_of_app in Hq as [?|[->|?]%elem_of_cons];
          apply elem_of_app; [by left | done | by right].
      * destruct Hs as [a Ha]. exists a. by rewrite Hsup, Hq0 in Ha.
    + intros (q & Hq & [a Ha]).
      assert (q ≠ p) as Hne by (intros ->; done).
      exists q. unfold attached in *. split.
      * rewrite Ho in Hq. rewrite Ho1.
        apply elem_of_app in Hq as [?|?]; apply elem_of_app;
          [by left | right; by right].
      * exists a. by rewrite Hsup, Hq0.
Qed.

Lemma connect_fresh_plug_witness :
  compiled_ok (after two_suppliers) hub ∧
  ¬ attached (after two_suppliers) hub plugC ∧
  ∃ w', (Plug.__init__ plugC ;; Socket.connect base_hooks hub plugC 1)
          (after two_suppliers) = Return tt w' ∧
        attached w' hub plugC.
Proof.
  assert (¬ attached (after two_suppliers) hub plugC) as Hnot.
  { unfold attached. rewrite two_suppliers_order. intros Hin.
    repeat (apply elem_of_cons in Hin as [Heq|Hin]; [discriminate Heq|]).
    exact (proj1 (elem_of_nil _) Hin). }
  split; [exact two_suppliers_compiled|]. split; [exact Hnot|].
  destruct (connect_fresh_plug hub plugC 1 (after two_suppliers)
              two_suppliers_compiled Hnot) as (w' & Hrun & Hatt & _).
  exists w'. split; [exact Hrun | exact Hatt].
Defined.
